(** * WaniWords: word-list filters and frequency-list reconciliation

    A shallow embedding of the decision logic of [wanikani.py] (the
    [WaniKaniHandler] known-set derivation and its three word-list
    filters) and of [waniwords_utility.py] (the construction of the
    candidate word list from the NLT and BCCWJ corpus files, and the
    retrieval of the most frequent words), followed by the properties
    that the design document states about them. *)

From stdpp Require Import gmap strings list fin_maps.

Local Open Scope N_scope.

(** ** Python strings

    A Python [str] is a sequence of Unicode code points; iterating over a
    word yields one-character strings, and [c in some_list] compares that
    one-character string with the elements of the list. *)

Definition char := N.
Definition str := list char.

(** Literals are written as UTF-8 text and decoded once to code points. *)
Fixpoint utf8_decode (bs : list N) : str :=
  match bs with
  | [] => []
  | b0 :: r0 =>
    if b0 <? 128 then b0 :: utf8_decode r0
    else match r0 with
    | [] => [b0]
    | b1 :: r1 =>
      if b0 <? 224 then ((b0 - 192) * 64 + (b1 - 128)) :: utf8_decode r1
      else match r1 with
      | [] => [b0; b1]
      | b2 :: r2 =>
        if b0 <? 240
        then ((b0 - 224) * 4096 + (b1 - 128) * 64 + (b2 - 128)) :: utf8_decode r2
        else match r2 with
        | [] => [b0; b1; b2]
        | b3 :: r3 =>
          ((b0 - 240) * 262144 + (b1 - 128) * 4096 + (b2 - 128) * 64 + (b3 - 128))
            :: utf8_decode r3
        end
      end
    end
  end.

Definition u (s : string) : str :=
  utf8_decode (map Ascii.N_of_ascii (String.list_ascii_of_string s)).

(** [a == b] on strings. *)
Definition str_eqb (a b : str) : bool := bool_decide (a = b).

(** [x in l] for a list [l]. *)
Definition py_in {A} `{EqDecision A} (x : A) (l : list A) : bool :=
  bool_decide (x ∈ l).

(** [s.startswith(p)], used to define the substring test. *)
Fixpoint starts_with (p s : str) : bool :=
  match p, s with
  | [], _ => true
  | _ :: _, [] => false
  | a :: p', b :: s' => (a =? b) && starts_with p' s'
  end.

(** [sub in s] for strings: [sub] occurs in [s] as a contiguous run. *)
Fixpoint str_contains (sub s : str) : bool :=
  starts_with sub s ||
  match s with
  | [] => false
  | _ :: s' => str_contains sub s'
  end.

(** [str.isspace] for one code point: the characters [str.strip()]
    removes when called without argument. *)
Definition is_space (c : char) : bool :=
  ((9 <=? c) && (c <=? 13)) || ((28 <=? c) && (c <=? 32)) ||
  (c =? 133) || (c =? 160) || (c =? 5760) ||
  ((8192 <=? c) && (c <=? 8202)) || (c =? 8232) || (c =? 8233) ||
  (c =? 8239) || (c =? 8287) || (c =? 12288).

Fixpoint lstrip (s : str) : str :=
  match s with
  | [] => []
  | c :: s' => if is_space c then lstrip s' else s
  end.

Definition rstrip (s : str) : str := reverse (lstrip (reverse s)).

(** [s.strip()] *)
Definition strip (s : str) : str := rstrip (lstrip s).

(** [s.split(sep)] for a one-character separator: never empty, and an
    empty field between two adjacent separators is kept. *)
Fixpoint split (sep : char) (s : str) : list str :=
  match s with
  | [] => [[]]
  | c :: s' =>
    if c =? sep then [] :: split sep s'
    else match split sep s' with
         | [] => [[c]]
         | f :: fs => (c :: f) :: fs
         end
  end.

(** [s[-2:]] and [s[:-2]]: the last two characters (all of [s] when it is
    shorter) and what precedes them. *)
Definition slice_last2 (s : str) : str := drop (length s - 2)%nat s.
Definition slice_but_last2 (s : str) : str := take (length s - 2)%nat s.

(** [l[0:n]] for a Python [int] [n]: a negative bound counts from the
    end of the list. *)
Definition slice_to {A} (l : list A) (n : Z) : list A :=
  if (n <? 0)%Z then take (length l - Z.to_nat (- n))%nat l
  else take (Z.to_nat n) l.

(** ** Exceptions *)

Inductive exn := KeyError | IndexError.

Inductive result (A : Type) :=
| Ok (a : A)
| Raise (e : exn).
Arguments Ok {A} a.
Arguments Raise {A} e.

#[global] Instance result_ret : MRet result := λ A a, Ok a.
#[global] Instance result_bind : MBind result := λ A B f m,
  match m with
  | Ok a => f a
  | Raise e => Raise e
  end.
#[global] Instance result_fmap : FMap result := λ A B f m,
  match m with
  | Ok a => Ok (f a)
  | Raise e => Raise e
  end.

(** [l[i]] on a list: [IndexError] when out of range. *)
Definition index {A} (l : list A) (i : nat) : result A :=
  match l !! i with
  | Some x => Ok x
  | None => Raise IndexError
  end.

(** ** Constants of [waniwords_utility.py] *)

Definition _NLT_BLACKLISTED_WORD_TYPES : list str :=
  [u "助詞"; u "助動詞"; u "動詞-接尾"; u "記号"].
Definition _BCCWJ_BLACKLISTED_WORD_TYPES : list str := [u "接尾辞"].
Definition _BLACKLISTED_SYMBOLS : list str :=
  [u "*"; u "％"; u "ｍ"; u "ｇ"; u "8"; u "【"].

Definition KANA_LIST : list str := Eval vm_compute in map u [
    "ぁ"; "あ"; "ぃ"; "い"; "ぅ"; "う"; "ゔ"; "ぇ"; "え"; "ぉ"; "お"; "ゕ"; "か"; "が"; "き"; "ぎ"; "く"; "ぐ"; "ゖ"; "け"; "げ";
    "こ"; "ご"; "さ"; "ざ"; "し"; "じ"; "す"; "ず"; "せ"; "ぜ"; "そ"; "ぞ"; "た"; "だ"; "ち"; "ぢ"; "っ"; "つ"; "づ"; "て"; "で";
    "と"; "ど"; "な"; "に"; "ぬ"; "ね"; "の"; "は"; "ば"; "ぱ"; "ひ"; "び"; "ぴ"; "ふ"; "ぶ"; "ぷ"; "へ"; "べ"; "ぺ"; "ほ"; "ぼ";
    "ぽ"; "ま"; "み"; "む"; "め"; "も"; "ゃ"; "や"; "ゅ"; "ゆ"; "ょ"; "よ"; "ら"; "り"; "る"; "れ"; "ろ"; "ゎ"; "わ"; "ゐ"; "ゑ";
    "を"; "ん"; "ァ"; "ア"; "ィ"; "イ"; "ゥ"; "ウ"; "ヴ"; "ェ"; "エ"; "ォ"; "オ"; "ヵ"; "カ"; "ガ"; "キ"; "ギ"; "ク"; "グ"; "ヶ";
    "ケ"; "ゲ"; "コ"; "ゴ"; "サ"; "ザ"; "シ"; "ジ"; "ス"; "ズ"; "セ"; "ゼ"; "ソ"; "ゾ"; "タ"; "ダ"; "チ"; "ヂ"; "ッ"; "ツ"; "ヅ";
    "テ"; "デ"; "ト"; "ド"; "ナ"; "ニ"; "ヌ"; "ネ"; "ノ"; "ハ"; "バ"; "パ"; "ヒ"; "ビ"; "ピ"; "フ"; "ブ"; "プ"; "ベ"; "ペ"; "ホ";
    "ボ"; "ポ"; "マ"; "ミ"; "ム"; "メ"; "モ"; "ャ"; "ヤ"; "ュ"; "ユ"; "ョ"; "ヨ"; "ラ"; "リ"; "ル"; "レ"; "ロ"; "ヮ"; "ワ"; "ヷ";
    "ヰ"; "ヸ"; "ヱ"; "ヹ"; "ヲ"; "ヺ"; "ン"; "・"; "ー"
  ]%string.

(** ** [WaniKaniHandler]

    [_data_dictionary] is the decoded cache: four entries, each of which
    may be missing (a fresh or undecodable cache is the empty dictionary).
    The assignment dictionaries are only iterated over, in insertion
    order of their keys, so they are kept as association lists; the
    subject catalogs are only indexed, so they are finite maps. The key
    type [K] is the subject id (an [int] after a download, a [str] after a
    reload of the cache file). *)

Section WaniKaniHandler.
Context `{Countable K}.

Record data_dictionary := {
  user_kanji_assignments : option (list (K * Z));
  user_vocabulary_assignments : option (list (K * Z));
  all_kanji_subjects : option (gmap K str);
  all_vocabulary_subjects : option (gmap K str)
}.

Record WaniKaniHandler := {
  _data_dictionary : data_dictionary
}.

(** [d[key]] on the outer dictionary and on a catalog. *)
Definition getitem {A} (entry : option A) : result A :=
  match entry with
  | Some v => Ok v
  | None => Raise KeyError
  end.

Definition subject_getitem (catalog : gmap K str) (lesson_id : K) : result str :=
  getitem (catalog !! lesson_id).

(** The body of the loop of [get_known_kanji_list] and of
    [get_known_vocabulary_list]: the catalog entry of the outer
    dictionary is looked up again at every iteration, then indexed. *)
Fixpoint known_list_loop (catalog_entry : option (gmap K str))
    (lesson_ids : list K) (known_list : list str) : result (list str) :=
  match lesson_ids with
  | [] => Ok known_list
  | lesson_id :: rest =>
    catalog ← getitem catalog_entry;
    subject ← subject_getitem catalog lesson_id;
    known_list_loop catalog_entry rest (known_list ++ [subject])
  end.

Definition get_known_kanji_list (self : WaniKaniHandler) : result (list str) :=
  assignments ← getitem (user_kanji_assignments (_data_dictionary self));
  known_list_loop (all_kanji_subjects (_data_dictionary self)) (assignments.*1) [].

Definition get_known_vocabulary_list (self : WaniKaniHandler) : result (list str) :=
  assignments ← getitem (user_vocabulary_assignments (_data_dictionary self));
  known_list_loop (all_vocabulary_subjects (_data_dictionary self)) (assignments.*1) [].

(** The outer loop shared by the filters: [keep word] is the condition
    under which the body reaches [new_list_of_words.append(word)]. *)
Fixpoint append_kept (keep : str → bool) (list_of_words : list str)
    (new_list_of_words : list str) : list str :=
  match list_of_words with
  | [] => new_list_of_words
  | word :: rest =>
    if keep word then append_kept keep rest (new_list_of_words ++ [word])
    else append_kept keep rest new_list_of_words
  end.

Definition filter_out_known_words (self : WaniKaniHandler)
    (list_of_words : list str) (invert_filter : bool) : result (list str) :=
  known_vocabulary ← get_known_vocabulary_list self;
  Ok (append_kept
        (λ word, xorb (negb (py_in word known_vocabulary)) invert_filter)
        list_of_words []).

(** The inner [for character in word: ... break ... else:] loop: [true]
    when the loop runs to its end and the [else] suite is executed,
    [false] when it is left through [break]. *)
Fixpoint for_else (known_characters : list str) (word : str) : bool :=
  match word with
  | [] => true
  | character :: rest =>
    if negb (py_in [character] known_characters) then false
    else for_else known_characters rest
  end.

Definition filter_out_unknown_kanji (self : WaniKaniHandler)
    (list_of_words : list str) (invert_filter : bool) : result (list str) :=
  known_kanji ← get_known_kanji_list self;
  let known_characters := KANA_LIST ++ known_kanji in
  if negb invert_filter then
    (* else suite appends *)
    Ok (append_kept (λ word, for_else known_characters word) list_of_words [])
  else
    (* else suite continues, the append is reached after a break *)
    Ok (append_kept (λ word, negb (for_else known_characters word)) list_of_words []).

Definition filter_out_kana_words (list_of_words : list str)
    (invert_filter : bool) : list str :=
  let known_characters := KANA_LIST in
  if negb invert_filter then
    append_kept (λ word, negb (for_else known_characters word)) list_of_words []
  else
    append_kept (λ word, for_else known_characters word) list_of_words [].

End WaniKaniHandler.

Arguments data_dictionary K : clear implicits.
Arguments WaniKaniHandler K {_ _}.

(** ** [generate_frequency_list_file]: from the two corpus files to the
    list of candidate words

    Each corpus file is the list of its lines. A corpus entry is the pair
    [(word_lemma, word_reading)]. The two scanning loops take the bound
    that the source writes as a literal ([51_000] and [70_000]) as their
    argument [cap]. *)

Definition entry : Type := str * str.

(** [for symbol in _BLACKLISTED_SYMBOLS: if symbol in word_lemma: break]
    followed by [else:]: [true] when the [else] suite is run. *)
Fixpoint symbols_for_else (symbols : list str) (word_lemma : str) : bool :=
  match symbols with
  | [] => true
  | symbol :: rest =>
    if str_contains symbol word_lemma then false
    else symbols_for_else rest word_lemma
  end.

(** The loop over the lines of the NLT file. *)
Fixpoint nlt_loop (cap : N) (nlt_database_file : list str) (word_count : N)
    (list_of_entries : list entry) : result (list entry) :=
  match nlt_database_file with
  | [] => Ok list_of_entries
  | line :: rest =>
    let data := split 44 line in (* ',' *)
    word_lemma ← strip <$> index data 0;
    word_type ← strip <$> index data 1;
    word_reading ← strip <$> index data 2;
    if py_in word_type _NLT_BLACKLISTED_WORD_TYPES || str_eqb word_lemma [] then
      nlt_loop cap rest word_count list_of_entries
    else
      let '(word_count, list_of_entries) :=
        if symbols_for_else _BLACKLISTED_SYMBOLS word_lemma
        then (word_count + 1, list_of_entries ++ [(word_lemma, word_reading)])
        else (word_count, list_of_entries) in
      if word_count =? cap then Ok list_of_entries
      else nlt_loop cap rest word_count list_of_entries
  end.

(** [for blacklisted_type in _BCCWJ_BLACKLISTED_WORD_TYPES:
    if blacklisted_type in word_type: append; break]: [true] when the
    entry is appended. *)
Fixpoint type_is_blacklisted (types : list str) (word_type : str) : bool :=
  match types with
  | [] => false
  | blacklisted_type :: rest =>
    if str_contains blacklisted_type word_type then true
    else type_is_blacklisted rest word_type
  end.

(** The loop over the lines of the BCCWJ file. *)
Fixpoint bccwj_loop (cap : N) (bccwj_database_file : list str) (word_count : N)
    (list_of_blacklisted_entries : list entry) : result (list entry) :=
  match bccwj_database_file with
  | [] => Ok list_of_blacklisted_entries
  | line :: rest =>
    let word_count := word_count + 1 in
    let data := split 9 line in (* tab *)
    word_lemma ← strip <$> index data 2;
    word_type ← strip <$> index data 3;
    word_reading ← strip <$> index data 1;
    let list_of_blacklisted_entries :=
      if type_is_blacklisted _BCCWJ_BLACKLISTED_WORD_TYPES word_type
      then list_of_blacklisted_entries ++ [(word_lemma, word_reading)]
      else list_of_blacklisted_entries in
    if word_count =? cap then Ok list_of_blacklisted_entries
    else bccwj_loop cap rest word_count list_of_blacklisted_entries
  end.

(** [for blacklisted_entry in list_of_blacklisted_entries: if ...: break]
    followed by [else:]: [true] when no blacklisted entry has both the
    lemma and the reading of [entry]. *)
Fixpoint blacklist_for_else (list_of_blacklisted_entries : list entry)
    (word_lemma : str) (e : entry) : bool :=
  match list_of_blacklisted_entries with
  | [] => true
  | blacklisted_entry :: rest =>
    if str_eqb word_lemma blacklisted_entry.1 && str_eqb e.2 blacklisted_entry.2
    then false
    else blacklist_for_else rest word_lemma e
  end.

(** Lines 82-83: remove the suffix of the "suru verbs". *)
Definition suru : str := u "する".

Definition remove_suru (word_lemma : str) : str :=
  if negb (str_eqb word_lemma suru) && str_eqb (slice_last2 word_lemma) suru
  then slice_but_last2 word_lemma
  else word_lemma.

(** The loop over [list_of_entries] that builds [list_of_words]. *)
Fixpoint words_loop (list_of_blacklisted_entries : list entry)
    (list_of_entries : list entry) (list_of_words : list str) : list str :=
  match list_of_entries with
  | [] => list_of_words
  | e :: rest =>
    let word_lemma := e.1 in
    if blacklist_for_else list_of_blacklisted_entries word_lemma e then
      let word_lemma := remove_suru word_lemma in
      if negb (py_in word_lemma list_of_words)
      then words_loop list_of_blacklisted_entries rest (list_of_words ++ [word_lemma])
      else words_loop list_of_blacklisted_entries rest list_of_words
    else words_loop list_of_blacklisted_entries rest list_of_words
  end.

Definition nlt_scan (nlt_database_file : list str) : result (list entry) :=
  nlt_loop 51000 nlt_database_file 0 [].

Definition bccwj_scan (bccwj_database_file : list str) : result (list entry) :=
  bccwj_loop 70000 bccwj_database_file 0 [].

(** The first part of [generate_frequency_list_file], up to the list of
    words that is then handed to the JPDB handler. *)
Definition candidate_list (nlt_database_file bccwj_database_file : list str)
    : result (list str) :=
  list_of_entries ← nlt_scan nlt_database_file;
  list_of_blacklisted_entries ← bccwj_scan bccwj_database_file;
  Ok (words_loop list_of_blacklisted_entries list_of_entries []).

(** ** [generate_frequent_words]

    [words_list] is the content of the frequency list file. *)
Definition generate_frequent_words (words_list : list str) (num_of_words : Z)
    : list str :=
  if (Z.of_nat (length words_list) <? num_of_words)%Z then words_list
  else slice_to words_list num_of_words.

(** ** Vocabulary of the design document *)

(** For the code a character is kana when the one-character string is in
    [KANA_LIST]. *)
Definition is_kana (c : char) : Prop := [c] ∈ KANA_LIST.

(** For the code a word is fully known when each of its characters is in
    [KANA_LIST] or in the known-kanji list, and kana-only when each is in
    [KANA_LIST]. *)
Definition fully_known (known_kanji_set : list str) (word : str) : Prop :=
  Forall (λ c, is_kana c ∨ [c] ∈ known_kanji_set) word.

Definition kana_only (word : str) : Prop := Forall is_kana word.

#[global] Instance is_kana_dec c : Decision (is_kana c).
Proof. unfold is_kana. apply _. Defined.

#[global] Instance fully_known_dec S w : Decision (fully_known S w).
Proof. unfold fully_known. apply _. Defined.

#[global] Instance kana_only_dec w : Decision (kana_only w).
Proof. unfold kana_only. apply _. Defined.

(** Kana as the design document has it: the letters of the hiragana
    block (U+3041 to U+3096), the letters of the katakana block (U+30A1 to
    U+30FA), the middle dot (U+30FB) and the prolonged-sound mark
    (U+30FC). A word is fully known, in the document's sense, when each of
    its characters is such a kana or is in the known-kanji set. *)
Definition spec_is_kana (c : char) : Prop :=
  (12353 ≤ c ∧ c ≤ 12438) ∨ (12449 ≤ c ∧ c ≤ 12540).

Definition spec_fully_known (known_kanji_set : list str) (word : str) : Prop :=
  Forall (λ c, spec_is_kana c ∨ [c] ∈ known_kanji_set) word.

#[global] Instance spec_is_kana_dec c : Decision (spec_is_kana c).
Proof. unfold spec_is_kana. apply _. Defined.

#[global] Instance spec_fully_known_dec S w : Decision (spec_fully_known S w).
Proof. unfold spec_fully_known. apply _. Defined.

(** The katakana ヘ (U+30D8). *)
Definition katakana_he : char := 12504.

(** The two results of a filter, without and with [invert_filter], split
    the word list [W]: as sets they are disjoint and their union is [W]. *)
Definition complementary (W r0 r1 : list str) : Prop :=
  list_to_set r0 ∪ list_to_set r1 = (list_to_set W : gset str) ∧
  (list_to_set r0 : gset str) ## list_to_set r1.

(** The scenario of the design document: the user knows the kanji 食 and
    the word 食べる. *)
Definition scenario_handler : WaniKaniHandler Z := {|
  _data_dictionary := {|
    user_kanji_assignments := Some [(440%Z, 5%Z)];
    user_vocabulary_assignments := Some [(2467%Z, 5%Z)];
    all_kanji_subjects := Some {[ 440%Z := u "食" ]};
    all_vocabulary_subjects := Some {[ 2467%Z := u "食べる" ]}
  |}
|}.

Definition scenario_words : list str := [u "食べる"; u "食べ物"; u "飲む"].

(** A handler whose kanji assignments name a subject that the catalog
    does not have. *)
Definition inconsistent_handler : WaniKaniHandler Z := {|
  _data_dictionary := {|
    user_kanji_assignments := Some [(440%Z, 5%Z); (441%Z, 6%Z)];
    user_vocabulary_assignments := Some [(2467%Z, 5%Z); (2468%Z, 1%Z)];
    all_kanji_subjects := Some {[ 440%Z := u "食" ]};
    all_vocabulary_subjects := Some {[ 2467%Z := u "食べる" ]}
  |}
|}.

(** What the derivation returns for the assignment ids [ids] and the
    subject catalog [catalog]: the subject of each id, in order, when all
    ids are in the catalog, and a raised [KeyError] when one is not. *)
Definition projection_or_error `{Countable K} (catalog : gmap K str)
    (ids : list K) (r : result (list str)) : Prop :=
  (Forall (λ id, is_Some (catalog !! id)) ids →
     ∃ known, r = Ok known ∧
       Forall2 (λ id subject, catalog !! id = Some subject) ids known) ∧
  (Exists (λ id, catalog !! id = None) ids → r = Raise KeyError).

(** ** Vocabulary for the corpus scans *)

(** [sub] occurs in [s]. *)
Definition occurs_in (sub s : str) : Prop := ∃ pre post, s = pre ++ sub ++ post.

(** The stripped field [i] of a line, and the lines on which the fields
    read by each scan exist. *)
Definition field (sep : char) (i : nat) (line : str) : str :=
  strip (default [] (split sep line !! i)).

Definition nlt_well_formed (line : str) : Prop :=
  (3 ≤ length (split 44%N line))%nat.
Definition bccwj_well_formed (line : str) : Prop :=
  (4 ≤ length (split 9%N line))%nat.

(** The entry of an NLT line, and whether the line survives the
    type-blacklist, empty-lemma and symbol-blacklist tests. *)
Definition nlt_entry (line : str) : entry := (field 44 0 line, field 44 2 line).

Definition nlt_survives (line : str) : bool :=
  negb (py_in (field 44 1 line) _NLT_BLACKLISTED_WORD_TYPES
        || str_eqb (field 44 0 line) [])
  && symbols_for_else _BLACKLISTED_SYMBOLS (field 44 0 line).

(** The entry of a BCCWJ line, and whether its type is blacklisted. *)
Definition bccwj_entry (line : str) : entry := (field 9 2 line, field 9 1 line).

Definition bccwj_blacklisted (line : str) : bool :=
  type_is_blacklisted _BCCWJ_BLACKLISTED_WORD_TYPES (field 9 3 line).

(** The words of [l] in the order of their first occurrences
    ([remove_dups] keeps last occurrences). *)
Definition first_occurrences (l : list str) : list str :=
  reverse (remove_dups (reverse l)).

(** A line of a corpus file: the text followed by a newline; for the
    tab-separated file, the fields joined by tabs. *)
Definition ln (s : string) : str := u s ++ [10].

Fixpoint join (sep : char) (fields : list str) : str :=
  match fields with
  | [] => []
  | [f] => f
  | f :: fs => f ++ sep :: join sep fs
  end.

Definition tsv (fields : list string) : str := join 9 (u <$> fields) ++ [10].

(** ** [WaniKaniHandler]: construction and downloads

    The cache file is missing, holds text that is not JSON, or holds a
    JSON dictionary. *)

Section downloads.
Context `{Countable K}.

Inductive cache_file :=
| CacheMissing
| CacheUndecodable
| CacheHolds (d : @data_dictionary K _ _).

Definition empty_data_dictionary : @data_dictionary K _ _ := {|
  user_kanji_assignments := None;
  user_vocabulary_assignments := None;
  all_kanji_subjects := None;
  all_vocabulary_subjects := None
|}.

(** [__init__]: the handler and the cache file it leaves behind. A
    missing file is created empty (mode ["x"]), which a later [json.load]
    cannot decode. *)
Definition __init__ (cache : cache_file) : WaniKaniHandler K * cache_file :=
  match cache with
  | CacheHolds d => ({| _data_dictionary := d |}, CacheHolds d)
  | CacheMissing =>
      ({| _data_dictionary := empty_data_dictionary |}, CacheUndecodable)
  | CacheUndecodable =>
      ({| _data_dictionary := empty_data_dictionary |}, CacheUndecodable)
  end.

(** The entries of the lists that [_call_api] returns: a subject with
    [item["id"]] and [item["data"]["characters"]], an assignment with
    [item["data"]["subject_id"]] and [item["data"]["srs_stage"]]. *)
Record subject_item := {
  item_id : K;
  item_characters : str
}.

Record assignment_item := {
  item_subject_id : K;
  item_srs_stage : Z
}.

(** [d[k] = v] on a dictionary kept in insertion order: the value of a
    key that is present is replaced in place, a new key goes to the end. *)
Fixpoint dict_setitem {V} (d : list (K * V)) (k : K) (v : V) : list (K * V) :=
  match d with
  | [] => [(k, v)]
  | (k', v') :: d' =>
    if decide (k = k') then (k, v) :: d'
    else (k', v') :: dict_setitem d' k v
  end.

Fixpoint subjects_loop (subjects_list : list subject_item)
    (id_to_string_dictionary : gmap K str) : gmap K str :=
  match subjects_list with
  | [] => id_to_string_dictionary
  | item :: rest =>
    subjects_loop rest
      (<[item_id item := item_characters item]> id_to_string_dictionary)
  end.

Fixpoint assignments_loop (assignments_list : list assignment_item)
    (id_to_srs_dictionary : list (K * Z)) : list (K * Z) :=
  match assignments_list with
  | [] => id_to_srs_dictionary
  | item :: rest =>
    assignments_loop rest
      (dict_setitem id_to_srs_dictionary (item_subject_id item) (item_srs_stage item))
  end.

(** The four downloads; the list is what [_call_api] returned. *)
Definition _download_wanikani_kanji (self : WaniKaniHandler K)
    (kanji_subjects_list : list subject_item) : WaniKaniHandler K :=
  let d := _data_dictionary self in
  {| _data_dictionary := {|
       user_kanji_assignments := user_kanji_assignments d;
       user_vocabulary_assignments := user_vocabulary_assignments d;
       all_kanji_subjects := Some (subjects_loop kanji_subjects_list ∅);
       all_vocabulary_subjects := all_vocabulary_subjects d |} |}.

Definition _download_wanikani_vocabulary (self : WaniKaniHandler K)
    (vocabulary_subjects_list : list subject_item) : WaniKaniHandler K :=
  let d := _data_dictionary self in
  {| _data_dictionary := {|
       user_kanji_assignments := user_kanji_assignments d;
       user_vocabulary_assignments := user_vocabulary_assignments d;
       all_kanji_subjects := all_kanji_subjects d;
       all_vocabulary_subjects := Some (subjects_loop vocabulary_subjects_list ∅) |} |}.

Definition _download_user_known_kanji (self : WaniKaniHandler K)
    (kanji_assignments_list : list assignment_item) : WaniKaniHandler K :=
  let d := _data_dictionary self in
  {| _data_dictionary := {|
       user_kanji_assignments := Some (assignments_loop kanji_assignments_list []);
       user_vocabulary_assignments := user_vocabulary_assignments d;
       all_kanji_subjects := all_kanji_subjects d;
       all_vocabulary_subjects := all_vocabulary_subjects d |} |}.

Definition _download_user_known_vocabulary (self : WaniKaniHandler K)
    (vocabulary_assignments_list : list assignment_item) : WaniKaniHandler K :=
  let d := _data_dictionary self in
  {| _data_dictionary := {|
       user_kanji_assignments := user_kanji_assignments d;
       user_vocabulary_assignments :=
         Some (assignments_loop vocabulary_assignments_list []);
       all_kanji_subjects := all_kanji_subjects d;
       all_vocabulary_subjects := all_vocabulary_subjects d |} |}.

(** [download_all_data], given the four lists that the four calls of
    [_call_api] return; the cache file that is written at the end is not
    part of the model. *)
Definition download_all_data (self : WaniKaniHandler K)
    (kanji_assignments_list vocabulary_assignments_list : list assignment_item)
    (kanji_subjects_list vocabulary_subjects_list : list subject_item)
    : WaniKaniHandler K :=
  let self := _download_user_known_kanji self kanji_assignments_list in
  let self := _download_user_known_vocabulary self vocabulary_assignments_list in
  let self := _download_wanikani_kanji self kanji_subjects_list in
  _download_wanikani_vocabulary self vocabulary_subjects_list.

(** The elements of a list in the order of their first occurrences. *)
Definition first_seen {A} `{EqDecision A} (l : list A) : list A :=
  reverse (remove_dups (reverse l)).

(** The last entry of an API list that carries the id [k]. *)
Definition last_subject (subjects_list : list subject_item) (k : K)
    : option subject_item :=
  last (filter (λ item, item_id item = k) subjects_list).

Definition last_assignment (assignments_list : list assignment_item) (k : K)
    : option assignment_item :=
  last (filter (λ item, item_subject_id item = k) assignments_list).

End downloads.

Arguments subject_item K : clear implicits.
Arguments assignment_item K : clear implicits.
Arguments cache_file K {_ _}.

(** ** [generate_frequency_list_file]: from the candidate words to the
    frequency list

    The JPDB handler is given by its two methods, taken as functions of
    their argument; [V] is the type of a vocabulary id. The result is the
    list that is written to the frequency list file. The batch size that
    the source writes as the literal [1000] is the argument [batch_size]
    of the loop. *)

(** [range(start, stop, step)] for a positive step: at most
    [stop - start] numbers. *)
Fixpoint range_from (fuel start stop step : nat) : list nat :=
  match fuel with
  | O => []
  | S fuel' =>
    if (start <? stop)%nat then start :: range_from fuel' (start + step) stop step
    else []
  end.

Definition py_range (start stop step : nat) : list nat :=
  range_from (stop - start) start stop step.

(** [list_of_words[i:i+batch_size]] *)
Definition words_slice (batch_size : nat) (list_of_words : list str) (i : nat)
    : list str :=
  take batch_size (drop i list_of_words).

Section jpdb_handler.
Context {V : Type} `{EqDecision V}.
Variable _get_vocabulary_ids : list str → list V.
Variable _get_vocabulary_spellings : list V → list str.

(** [for vocab in ...: if vocab not in vocabulary_ids_list: append] *)
Fixpoint extend_new (vocabs : list V) (vocabulary_ids_list : list V) : list V :=
  match vocabs with
  | [] => vocabulary_ids_list
  | vocab :: rest =>
    if negb (py_in vocab vocabulary_ids_list)
    then extend_new rest (vocabulary_ids_list ++ [vocab])
    else extend_new rest vocabulary_ids_list
  end.

Fixpoint batches_loop (batch_size : nat) (indices : list nat)
    (list_of_words : list str) (vocabulary_ids_list : list V) : list V :=
  match indices with
  | [] => vocabulary_ids_list
  | i :: rest =>
    let list_of_words_slice := words_slice batch_size list_of_words i in
    batches_loop batch_size rest list_of_words
      (extend_new (_get_vocabulary_ids list_of_words_slice) vocabulary_ids_list)
  end.

Definition generate_frequency_list_file
    (nlt_database_file bccwj_database_file : list str) : result (list str) :=
  list_of_words ← candidate_list nlt_database_file bccwj_database_file;
  let batch_size := 1000%nat in
  let vocabulary_ids_list :=
    batches_loop batch_size (py_range 0 (length list_of_words) batch_size)
      list_of_words [] in
  Ok (_get_vocabulary_spellings vocabulary_ids_list).

End jpdb_handler.

(** ** The configuration file

    The file is missing, holds text that is not JSON, or holds a JSON
    object; [J] is the type of a JSON value and [JStr] the JSON string. *)

Section config.
Context {J : Type} (JStr : str → J).

Inductive config_file :=
| ConfigMissing
| ConfigUndecodable
| ConfigHolds (d : gmap str J).

Definition write_config_file (api_keys_dict : gmap str J) : config_file :=
  ConfigHolds api_keys_dict.

(** The returned dictionary and the file afterwards. [|=] gives priority
    to the loaded entries. *)
Definition read_config_file (file : config_file) : gmap str J * config_file :=
  let api_keys_dict : gmap str J :=
    <[u "wanikani" := JStr []]> (<[u "jpdb" := JStr []]> ∅) in
  let api_keys_dict :=
    match file with
    | ConfigHolds loaded => loaded ∪ api_keys_dict
    | ConfigMissing | ConfigUndecodable => api_keys_dict
    end in
  (api_keys_dict, write_config_file api_keys_dict).

(** The dictionary that [read_config_file] starts from. *)
Definition default_api_keys : gmap str J :=
  <[u "wanikani" := JStr []]> (<[u "jpdb" := JStr []]> ∅).

End config.

Arguments config_file J : clear implicits.
Arguments ConfigMissing {J}.
Arguments ConfigUndecodable {J}.
Arguments ConfigHolds {J} d.

(** ** [print_list]: the text that is printed *)

Fixpoint print_list_loop (words_list : list str) : str :=
  match words_list with
  | [] => []
  | word :: rest =>
    (if (length word <=? 3)%nat then word ++ [9; 9] else word ++ [9])
      ++ print_list_loop rest
  end.

Definition print_list (words_list : list str) : str :=
  print_list_loop words_list ++ [10].

(** ** [_call_api]: pagination

    The server is given by the JSON responses it sends, in order. A
    response may have a ["data"] list, a ["pages"]["next_url"] that is
    [null] or a URL, and a ["code"]. What the call does to the outside is
    the list of its events: the GET requests, each with its URL and
    parameters, and the call of [remove_key_from_config("wanikani")]. The
    call returns the data, leaves through [sys.exit(1)], raises, or is
    left waiting when the responses run out. *)

Section call_api.
Context {Item Params : Type}.

Record api_response := {
  response_data : option (list Item);
  response_next_url : option (option str);
  response_code : option Z
}.

Inductive api_event :=
| Request (url : str) (params : option Params)
| RemoveKeyFromConfig (key : str).

Inductive api_outcome :=
| Returned (data_array : list Item)
| Exited (status : Z)
| Raised (e : exn)
| Unanswered.

(** The [except KeyError] suite. *)
Definition api_error (response_json : api_response) : list api_event * api_outcome :=
  match response_code response_json with
  | None => ([], Raised KeyError)
  | Some response_code =>
    if (response_code =? 401)%Z
    then ([RemoveKeyFromConfig (u "wanikani")], Exited 1)
    else ([], Exited 1)
  end.

Fixpoint _call_api_loop (responses : list api_response) (next_page : str)
    (parameters : option Params) (data_array : list Item)
    : list api_event * api_outcome :=
  match responses with
  | [] => ([Request next_page parameters], Unanswered)
  | response_json :: rest =>
    let '(events, outcome) :=
      match response_data response_json with
      | Some data =>
        let data_array := data_array ++ data in
        match response_next_url response_json with
        | Some None => ([], Returned data_array)
        | Some (Some url) => _call_api_loop rest url None data_array
        | None => api_error response_json
        end
      | None => api_error response_json
      end in
    (Request next_page parameters :: events, outcome)
  end.

Definition _call_api (endpoint : str) (parameters : Params)
    (responses : list api_response) : list api_event * api_outcome :=
  _call_api_loop responses (u "https://api.wanikani.com/v2/" ++ endpoint)
    (Some parameters) [].

(** A response that carries [data] and the URL of the next page, the
    response of the last page, and an error response. *)
Definition page_response (page : list Item * str) : api_response :=
  {| response_data := Some page.1;
     response_next_url := Some (Some page.2);
     response_code := None |}.

Definition last_page_response (data : list Item) : api_response :=
  {| response_data := Some data;
     response_next_url := Some None;
     response_code := None |}.

Definition error_response (code : Z) : api_response :=
  {| response_data := None;
     response_next_url := None;
     response_code := Some code |}.

End call_api.

Arguments api_response Item : clear implicits.
Arguments api_event Params : clear implicits.
Arguments api_outcome Item : clear implicits.

(** API lists for the examples: the kanji 食 is assigned twice. *)
Definition example_kanji_assignments : list (assignment_item Z) :=
  [ {| item_subject_id := 440%Z; item_srs_stage := 5%Z |};
    {| item_subject_id := 441%Z; item_srs_stage := 6%Z |};
    {| item_subject_id := 440%Z; item_srs_stage := 7%Z |} ].

Definition example_kanji_subjects : list (subject_item Z) :=
  [ {| item_id := 440%Z; item_characters := u "食" |};
    {| item_id := 441%Z; item_characters := u "飲" |} ].

Definition example_vocabulary_assignments : list (assignment_item Z) :=
  [ {| item_subject_id := 2467%Z; item_srs_stage := 1%Z |} ].

(** * Properties *)

Example u_taberu : u "食べる" = [39135; 12409; 12427].
Proof. reflexivity. Qed.

Example kana_list_length : length KANA_LIST = 177%nat.
Proof. reflexivity. Qed.

(** ** The string operations

    [split] cuts a string at every separator and nowhere else; [strip]
    removes the white space at both ends and nothing more. *)

Lemma split_nonempty sep s : split sep s ≠ [].
Proof.
  destruct s as [|c s]; simpl; [done|].
  destruct (c =? sep); [done|]. by destruct (split sep s).
Qed.

Lemma join_split sep s : join sep (split sep s) = s.
Proof.
  induction s as [|c s IH]; simpl; [done|].
  pose proof (split_nonempty sep s) as Hne.
  destruct (N.eqb_spec c sep) as [->|Hc].
  - destruct (split sep s) as [|f fs]; [done|]. simpl in *. by rewrite IH.
  - destruct (split sep s) as [|f [|f' fs]]; [done | |]; simpl in *;
      by rewrite <- IH.
Qed.

Lemma split_fields_no_sep sep s : Forall (λ f, sep ∉ f) (split sep s).
Proof.
  induction s as [|c s IH]; simpl.
  - repeat constructor. apply not_elem_of_nil.
  - destruct (N.eqb_spec c sep) as [->|Hc].
    + constructor; [apply not_elem_of_nil | done].
    + destruct (split sep s) as [|f fs]; [repeat constructor|].
      * by intros ->%list_elem_of_singleton.
      * apply Forall_cons in IH as [Hf Hfs]. constructor; [|done].
        rewrite not_elem_of_cons. by split.
Qed.

Lemma lstrip_spec s :
  ∃ pre, s = pre ++ lstrip s ∧ Forall (λ c, is_space c) pre ∧
         ∀ c rest, lstrip s = c :: rest → ¬ is_space c.
Proof.
  induction s as [|c s (pre & Hs & Hpre & Hhead)]; simpl.
  - exists []. repeat split; [constructor | done].
  - destruct (is_space c) eqn:Hc.
    + exists (c :: pre). repeat split.
      * simpl. by rewrite <- Hs.
      * constructor; [by rewrite Hc | done].
      * done.
    + exists []. repeat split; [constructor|].
      intros c' rest [= <- _]. rewrite Hc. intros [].
Qed.

Lemma strip_spec s :
  ∃ pre post, s = pre ++ strip s ++ post ∧
    Forall (λ c, is_space c) pre ∧ Forall (λ c, is_space c) post ∧
    (∀ c rest, strip s = c :: rest → ¬ is_space c) ∧
    (∀ c init, strip s = init ++ [c] → ¬ is_space c).
Proof.
  unfold strip, rstrip.
  destruct (lstrip_spec s) as (pre & Hs & Hpre & Hhead).
  destruct (lstrip_spec (reverse (lstrip s))) as (tsop & Hr & Htsop & Hlast).
  assert (Hmid : lstrip s = reverse (lstrip (reverse (lstrip s))) ++ reverse tsop).
  { rewrite <- reverse_app, <- Hr. by rewrite reverse_involutive. }
  exists pre, (reverse tsop). repeat split.
  - by rewrite <- Hmid.
  - done.
  - by apply Forall_reverse.
  - intros c rest Hc. rewrite Hc in Hmid. simpl in Hmid. by eapply Hhead.
  - intros c init Hc. apply (f_equal reverse) in Hc.
    rewrite reverse_involutive, reverse_snoc in Hc. by eapply Hlast.
Qed.

(** ** The filters in closed form *)

Section filters.
Context `{Countable K}.
Implicit Types (self : WaniKaniHandler K) (W S : list str) (w : str).

Lemma append_kept_acc (keep : str → bool) W acc :
  append_kept keep W acc = acc ++ filter (λ w, keep w) W.
Proof.
  revert acc. induction W as [|w W IH]; intros acc; simpl.
  - by rewrite app_nil_r.
  - destruct (keep w) eqn:Hk.
    + rewrite IH, filter_cons_True; [by rewrite <- app_assoc | by rewrite Hk].
    + rewrite IH, filter_cons_False; [done | rewrite Hk; intros []].
Qed.

Lemma append_kept_filter (keep : str → bool) W :
  append_kept keep W [] = filter (λ w, keep w) W.
Proof. apply append_kept_acc. Qed.

Lemma for_else_true known_characters w :
  for_else known_characters w = true ↔ Forall (λ c, [c] ∈ known_characters) w.
Proof.
  induction w as [|c w IH]; simpl.
  - split; [constructor | done].
  - unfold py_in. case_bool_decide as Hc; simpl.
    + rewrite IH. split; [by constructor | by inversion 1].
    + split; [done | by inversion 1].
Qed.

Lemma for_else_fully_known S w :
  for_else (KANA_LIST ++ S) w = true ↔ fully_known S w.
Proof.
  rewrite for_else_true. unfold fully_known, is_kana.
  apply Forall_iff. intros c. by rewrite elem_of_app.
Qed.

Lemma for_else_kana_only w : for_else KANA_LIST w = true ↔ kana_only w.
Proof. apply for_else_true. Qed.

Lemma filter_ext_list {A} (P Q : A → Prop) `{!∀ x, Decision (P x)}
    `{!∀ x, Decision (Q x)} (l : list A) :
  (∀ x, P x ↔ Q x) → filter P l = filter Q l.
Proof. intros HPQ. apply list_filter_iff. done. Qed.

Lemma known_words_closed self S W :
  get_known_vocabulary_list self = Ok S →
  filter_out_known_words self W false = Ok (filter (λ w, w ∉ S) W) ∧
  filter_out_known_words self W true = Ok (filter (λ w, w ∈ S) W).
Proof.
  intros HS. unfold filter_out_known_words. rewrite HS. simpl.
  split; f_equal; rewrite append_kept_filter; apply filter_ext_list; intros w;
    unfold py_in; case_bool_decide; simpl; naive_solver.
Qed.

Lemma unknown_kanji_closed self S W :
  get_known_kanji_list self = Ok S →
  filter_out_unknown_kanji self W false = Ok (filter (fully_known S) W) ∧
  filter_out_unknown_kanji self W true = Ok (filter (λ w, ¬ fully_known S w) W).
Proof.
  intros HS. unfold filter_out_unknown_kanji. rewrite HS. simpl.
  split; f_equal; rewrite append_kept_filter; apply filter_ext_list; intros w;
    rewrite <- for_else_fully_known; destruct (for_else _ w); simpl; naive_solver.
Qed.

Lemma kana_words_closed W :
  filter_out_kana_words W false = filter (λ w, ¬ kana_only w) W ∧
  filter_out_kana_words W true = filter kana_only W.
Proof.
  unfold filter_out_kana_words.
  split; simpl; rewrite append_kept_filter; apply filter_ext_list; intros w;
    rewrite <- for_else_kana_only; destruct (for_else _ w); simpl; naive_solver.
Qed.

Lemma filter_complementary (P : str → Prop) `{!∀ w, Decision (P w)} W :
  complementary W (filter (λ w, ¬ P w) W) (filter P W).
Proof.
  split.
  - apply set_eq. intros w.
    rewrite elem_of_union, !elem_of_list_to_set, !list_elem_of_filter.
    destruct (decide (P w)); tauto.
  - apply elem_of_disjoint. intros w.
    rewrite !elem_of_list_to_set, !list_elem_of_filter. tauto.
Qed.

Lemma complementary_sym W r0 r1 : complementary W r0 r1 → complementary W r1 r0.
Proof. intros [Hu Hd]. split; [by rewrite (comm_L (∪)) | done]. Qed.

End filters.

(** ** The known-set derivation *)

Section known_list.
Context `{Countable K}.
Implicit Types (catalog : gmap K str) (ids : list K).

Lemma known_list_loop_present catalog ids known_list :
  Forall (λ id, is_Some (catalog !! id)) ids →
  ∃ known,
    known_list_loop (Some catalog) ids known_list = Ok (known_list ++ known) ∧
    Forall2 (λ id subject, catalog !! id = Some subject) ids known.
Proof.
  intros Hall. revert known_list.
  induction Hall as [|id ids [subject Hid] _ IH]; intros known_list.
  - exists []. split; [by rewrite app_nil_r | constructor].
  - destruct (IH (known_list ++ [subject])) as (known & Hloop & Hproj).
    exists (subject :: known). split.
    + simpl. unfold subject_getitem. rewrite Hid. simpl.
      rewrite Hloop. by rewrite <- app_assoc.
    + by constructor.
Qed.

Lemma known_list_loop_absent catalog ids known_list :
  Exists (λ id, catalog !! id = None) ids →
  known_list_loop (Some catalog) ids known_list = Raise KeyError.
Proof.
  intros Hex. revert known_list.
  induction Hex as [id ids Hid | id ids _ IH]; intros known_list; simpl;
    unfold subject_getitem.
  - by rewrite Hid.
  - destruct (catalog !! id); simpl; [apply IH | done].
Qed.

End known_list.

Lemma known_list_loop_projection `{Countable K} (catalog : gmap K str) ids :
  projection_or_error catalog ids (known_list_loop (Some catalog) ids []).
Proof.
  split.
  - intros Hall.
    destruct (known_list_loop_present catalog ids [] Hall) as (known & ? & ?).
    by exists known.
  - apply known_list_loop_absent.
Qed.

(** ** Properties of the filters *)

(** [KANA_LIST] against the kana of the design document: it holds the
    one-character strings of all of them but one, the katakana ヘ. *)
Lemma KANA_LIST_sound (c : char) :
  [c] ∈ KANA_LIST → spec_is_kana c ∧ c ≠ katakana_he.
Proof.
  assert (Hall : Forall (λ s, ∃ c', s = [c'] ∧
                    bool_decide (spec_is_kana c' ∧ c' ≠ katakana_he))
                   KANA_LIST).
  { unfold KANA_LIST. repeat (constructor; [eexists; split; [reflexivity|];
      vm_compute; exact I|]). constructor. }
  intros Hin. rewrite Forall_forall in Hall.
  destruct (Hall _ Hin) as (c' & [= <-] & Hc). by apply bool_decide_unpack in Hc.
Qed.

Lemma KANA_LIST_complete (c : char) :
  spec_is_kana c → c ≠ katakana_he → [c] ∈ KANA_LIST.
Proof.
  assert (Hall : Forall (λ k : nat,
                    let c' := 12353 + N.of_nat k in
                    bool_decide (spec_is_kana c' ∧ c' ≠ katakana_he →
                                 [c'] ∈ KANA_LIST))
                   (seq 0 188)).
  { apply forallb_True. vm_compute. exact I. }
  intros Hkana Hhe. rewrite Forall_forall in Hall.
  assert (Hk : N.to_nat (c - 12353) ∈ seq 0 188).
  { apply elem_of_seq. unfold spec_is_kana in Hkana. lia. }
  specialize (Hall _ Hk). simpl in Hall. apply bool_decide_unpack in Hall.
  replace (12353 + N.of_nat (N.to_nat (c - 12353))) with c in Hall
    by (unfold spec_is_kana in Hkana; lia).
  by apply Hall.
Qed.

Lemma is_kana_spec (c : char) :
  is_kana c ↔ spec_is_kana c ∧ c ≠ katakana_he.
Proof.
  unfold is_kana. split; [apply KANA_LIST_sound|].
  intros [? ?]. by apply KANA_LIST_complete.
Qed.






(** C4: for every word list [W] and every known set, for each of the
    three filters the result without [invert_filter] and the result with
    it are disjoint as sets and their union is [W] as a set. *)
Theorem invert_is_complement `{Countable K} (self : WaniKaniHandler K)
    (W : list str) :
  (∀ S, get_known_vocabulary_list self = Ok S →
     ∃ r0 r1, filter_out_known_words self W false = Ok r0 ∧
              filter_out_known_words self W true = Ok r1 ∧
              complementary W r0 r1) ∧
  (∀ S, get_known_kanji_list self = Ok S →
     ∃ r0 r1, filter_out_unknown_kanji self W false = Ok r0 ∧
              filter_out_unknown_kanji self W true = Ok r1 ∧
              complementary W r0 r1) ∧
  complementary W (filter_out_kana_words W false) (filter_out_kana_words W true).
Proof.
  split; [|split].
  - intros S HS. destruct (known_words_closed self S W HS) as [-> ->].
    eexists _, _. split; [done|]. split; [done|].
    apply (filter_complementary (λ w, w ∈ S)).
  - intros S HS. destruct (unknown_kanji_closed self S W HS) as [-> ->].
    eexists _, _. split; [done|]. split; [done|].
    apply complementary_sym, (filter_complementary (fully_known S)).
  - destruct (kana_words_closed W) as [-> ->].
    apply (filter_complementary kana_only).
Qed.

Lemma invert_is_complement_witness :
  (∃ r0 r1, filter_out_known_words scenario_handler scenario_words false = Ok r0 ∧
            filter_out_known_words scenario_handler scenario_words true = Ok r1 ∧
            complementary scenario_words r0 r1) ∧
  (∃ r0 r1, filter_out_unknown_kanji scenario_handler scenario_words false = Ok r0 ∧
            filter_out_unknown_kanji scenario_handler scenario_words true = Ok r1 ∧
            complementary scenario_words r0 r1).
Proof.
  destruct (invert_is_complement scenario_handler scenario_words)
    as (Hwords & Hkanji & _).
  split.
  - apply (Hwords [u "食べる"]). reflexivity.
  - apply (Hkanji [u "食"]). reflexivity.
Defined.

(** C7: for every word list, known set and [invert_filter] flag, the
    output of each of the three filters is a subsequence of the input
    list, the kept words being in their original relative order. *)
Theorem filters_preserve_order `{Countable K} (self : WaniKaniHandler K)
    (W : list str) (invert_filter : bool) :
  (∀ S, get_known_vocabulary_list self = Ok S →
     ∃ r, filter_out_known_words self W invert_filter = Ok r ∧ r `sublist_of` W) ∧
  (∀ S, get_known_kanji_list self = Ok S →
     ∃ r, filter_out_unknown_kanji self W invert_filter = Ok r ∧ r `sublist_of` W) ∧
  filter_out_kana_words W invert_filter `sublist_of` W.
Proof.
  repeat split.
  - intros S HS. destruct (known_words_closed self S W HS) as [H0 H1].
    destruct invert_filter; eexists; (split; [eassumption | apply sublist_filter]).
  - intros S HS. destruct (unknown_kanji_closed self S W HS) as [H0 H1].
    destruct invert_filter; eexists; (split; [eassumption | apply sublist_filter]).
  - destruct (kana_words_closed W) as [H0 H1].
    destruct invert_filter; [rewrite H1 | rewrite H0]; apply sublist_filter.
Qed.

Lemma filters_preserve_order_witness :
  (∃ r, filter_out_known_words scenario_handler scenario_words true = Ok r ∧
        r `sublist_of` scenario_words) ∧
  (∃ r, filter_out_unknown_kanji scenario_handler scenario_words true = Ok r ∧
        r `sublist_of` scenario_words).
Proof.
  destruct (filters_preserve_order scenario_handler scenario_words true)
    as (Hwords & Hkanji & _).
  split.
  - apply (Hwords [u "食べる"]). reflexivity.
  - apply (Hkanji [u "食"]). reflexivity.
Defined.

(** C10: the empty word passes every per-character test. Whatever the
    known-kanji set, the known-character filter keeps the empty word when
    [invert_filter] is false (it keeps it exactly when it is in the input)
    and drops it when [invert_filter] is true; the kana-only filter drops
    it when [invert_filter] is false and keeps it when it is true. *)
Theorem empty_word_is_vacuously_known `{Countable K} (self : WaniKaniHandler K)
    (S W : list str) :
  get_known_kanji_list self = Ok S →
  fully_known S [] ∧ kana_only [] ∧
  (∃ r0 r1, filter_out_unknown_kanji self W false = Ok r0 ∧
            filter_out_unknown_kanji self W true = Ok r1 ∧
            ([] ∈ r0 ↔ [] ∈ W) ∧ [] ∉ r1) ∧
  filter_out_unknown_kanji self [[]] false = Ok [[]] ∧
  filter_out_unknown_kanji self [[]] true = Ok [] ∧
  ([] ∉ filter_out_kana_words W false) ∧
  ([] ∈ filter_out_kana_words W true ↔ [] ∈ W) ∧
  filter_out_kana_words [[]] false = [] ∧
  filter_out_kana_words [[]] true = [[]].
Proof.
  intros HS.
  assert (Hfk : fully_known S []) by constructor.
  assert (Hko : kana_only []) by constructor.
  destruct (kana_words_closed W) as [Hk0 Hk1].
  repeat split; try done.
  - destruct (unknown_kanji_closed self S W HS) as [-> ->].
    eexists _, _. repeat split; rewrite ?list_elem_of_filter; tauto.
  - unfold filter_out_unknown_kanji. by rewrite HS.
  - unfold filter_out_unknown_kanji. by rewrite HS.
  - rewrite Hk0, list_elem_of_filter. tauto.
  - rewrite Hk1, list_elem_of_filter. tauto.
  - rewrite Hk1, list_elem_of_filter. tauto.
Qed.

Lemma empty_word_is_vacuously_known_witness :
  get_known_kanji_list scenario_handler = Ok [u "食"] ∧
  filter_out_unknown_kanji scenario_handler [[]] false = Ok [[]] ∧
  filter_out_unknown_kanji scenario_handler [[]] true = Ok [].
Proof.
  assert (Hknown : get_known_kanji_list scenario_handler = Ok [u "食"])
    by reflexivity.
  split; [exact Hknown|].
  destruct (empty_word_is_vacuously_known scenario_handler [u "食"]
              scenario_words Hknown) as (_ & _ & _ & H0 & H1 & _).
  by split.
Defined.

(** C9: in the known-set derivation, when every assignment id is in the
    subject catalog the result is the list of the subjects of the ids, in
    order; when some assignment id is not in the catalog the call raises
    [KeyError] and returns no list, neither empty nor partial. *)
Theorem known_list_is_projection_or_error `{Countable K}
    (self : WaniKaniHandler K) :
  (∀ assignments catalog,
     user_kanji_assignments (_data_dictionary self) = Some assignments →
     all_kanji_subjects (_data_dictionary self) = Some catalog →
     projection_or_error catalog (assignments.*1) (get_known_kanji_list self)) ∧
  (∀ assignments catalog,
     user_vocabulary_assignments (_data_dictionary self) = Some assignments →
     all_vocabulary_subjects (_data_dictionary self) = Some catalog →
     projection_or_error catalog (assignments.*1) (get_known_vocabulary_list self)).
Proof.
  split; intros assignments catalog Ha Hc.
  - unfold get_known_kanji_list. rewrite Ha, Hc. simpl.
    apply known_list_loop_projection.
  - unfold get_known_vocabulary_list. rewrite Ha, Hc. simpl.
    apply known_list_loop_projection.
Qed.

Lemma known_list_is_projection_or_error_witness :
  projection_or_error (K:=Z) {[ 440%Z := u "食" ]} [440%Z]
    (get_known_kanji_list scenario_handler) ∧
  projection_or_error (K:=Z) {[ 2467%Z := u "食べる" ]} [2467%Z; 2468%Z]
    (get_known_vocabulary_list inconsistent_handler).
Proof.
  split.
  - apply (proj1 (known_list_is_projection_or_error scenario_handler)
             [(440%Z, 5%Z)]); reflexivity.
  - apply (proj2 (known_list_is_projection_or_error inconsistent_handler)
             [(2467%Z, 5%Z); (2468%Z, 1%Z)]); reflexivity.
Defined.

Example known_list_scenario :
  get_known_kanji_list scenario_handler = Ok [u "食"] ∧
  get_known_vocabulary_list scenario_handler = Ok [u "食べる"].
Proof. split; reflexivity. Qed.

Example known_list_inconsistent :
  get_known_kanji_list inconsistent_handler = Raise KeyError ∧
  get_known_vocabulary_list inconsistent_handler = Raise KeyError.
Proof. split; reflexivity. Qed.

(** ** [generate_frequent_words] *)

(** C8: for every stored frequency list [L] and requested count [n],
    [generate_frequent_words] returns the first [n] entries of [L] when [L]
    has at least [n] entries, and all of [L] when it has fewer. *)
Theorem generate_frequent_words_take (L : list str) (n : Z) :
  (0 ≤ n)%Z →
  ((n ≤ Z.of_nat (length L))%Z → generate_frequent_words L n = take (Z.to_nat n) L) ∧
  ((Z.of_nat (length L) < n)%Z → generate_frequent_words L n = L).
Proof.
  intros Hn. unfold generate_frequent_words, slice_to. split; intros Hlen.
  - rewrite (proj2 (Z.ltb_ge _ _)) by lia.
    by rewrite (proj2 (Z.ltb_ge _ _)) by lia.
  - by rewrite (proj2 (Z.ltb_lt _ _)) by lia.
Qed.

(** A negative [num_of_words] is not a count: the slice then leaves out
    that many words at the end. *)
Example generate_frequent_words_negative :
  generate_frequent_words scenario_words (-1) = [u "食べる"; u "食べ物"].
Proof. reflexivity. Qed.

Lemma generate_frequent_words_take_witness :
  (0 ≤ 2)%Z ∧
  generate_frequent_words scenario_words 2 = take 2 scenario_words ∧
  generate_frequent_words scenario_words 5 = scenario_words.
Proof.
  split; [lia|]. split.
  - apply (proj1 (generate_frequent_words_take scenario_words 2 ltac:(lia))).
    simpl. lia.
  - apply (proj2 (generate_frequent_words_take scenario_words 5 ltac:(lia))).
    simpl. lia.
Defined.

(** ** The corpus scans *)

Lemma starts_with_prefix (p s : str) : starts_with p s = true ↔ p `prefix_of` s.
Proof.
  revert s. induction p as [|a p IH]; intros [|b s]; simpl.
  - split; [intros _; apply prefix_nil | done].
  - split; [intros _; apply prefix_nil | done].
  - split; [done | intros [k Hk]; discriminate].
  - rewrite andb_true_iff, N.eqb_eq, IH. split.
    + intros [-> Hp]. by apply prefix_cons.
    + intros [k Hk]. injection Hk as -> ->. split; [done | by exists k].
Qed.

Lemma str_contains_occurs (sub s : str) :
  str_contains sub s = true ↔ occurs_in sub s.
Proof.
  induction s as [|c s IH].
  - simpl. rewrite orb_false_r, starts_with_prefix. split.
    + intros [k ->]. by exists [], k.
    + intros (pre & post & Hs). symmetry in Hs.
      apply app_eq_nil in Hs as [-> Hs]. apply app_eq_nil in Hs as [-> ->].
      apply prefix_nil.
  - change (str_contains sub (c :: s))
      with (starts_with sub (c :: s) || str_contains sub s).
    rewrite orb_true_iff, starts_with_prefix, IH. split.
    + intros [[k ->] | (pre & post & ->)].
      * by exists [], k.
      * by exists (c :: pre), post.
    + intros ([|c' pre] & post & Hs).
      * left. exists post. done.
      * right. injection Hs as -> ->. by exists pre, post.
Qed.

Lemma symbols_for_else_spec symbols lemma :
  symbols_for_else symbols lemma = true ↔
  ∀ symbol, symbol ∈ symbols → ¬ occurs_in symbol lemma.
Proof.
  induction symbols as [|symbol symbols IH]; simpl.
  - split; [|done]. intros _ symbol Hin. by apply elem_of_nil in Hin.
  - destruct (str_contains symbol lemma) eqn:Hc.
    + split; [done|]. intros Hall. exfalso.
      apply (Hall symbol); [left | by apply str_contains_occurs].
    + rewrite IH. split.
      * intros Hall s' [->|Hin]%elem_of_cons; [|by apply Hall].
        rewrite <- str_contains_occurs, Hc. done.
      * intros Hall s' Hin. apply Hall. by right.
Qed.

Lemma type_is_blacklisted_spec types word_type :
  type_is_blacklisted types word_type = true ↔
  ∃ blacklisted_type, blacklisted_type ∈ types ∧ occurs_in blacklisted_type word_type.
Proof.
  induction types as [|t types IH]; simpl.
  - split; [done|]. intros (t & Hin & _). by apply elem_of_nil in Hin.
  - destruct (str_contains t word_type) eqn:Hc.
    + split; [|done]. intros _. exists t. split; [left|].
      by apply str_contains_occurs.
    + rewrite IH. split.
      * intros (t' & Hin & Ho). exists t'. split; [by right | done].
      * intros (t' & [->|Hin]%elem_of_cons & Ho).
        -- apply str_contains_occurs in Ho. congruence.
        -- by exists t'.
Qed.

Local Opaque _NLT_BLACKLISTED_WORD_TYPES _BLACKLISTED_SYMBOLS
  _BCCWJ_BLACKLISTED_WORD_TYPES.

Lemma nlt_loop_step cap line rest word_count list_of_entries :
  word_count ≠ cap → nlt_well_formed line →
  nlt_loop cap (line :: rest) word_count list_of_entries =
    if nlt_survives line then
      if word_count + 1 =? cap then Ok (list_of_entries ++ [nlt_entry line])
      else nlt_loop cap rest (word_count + 1) (list_of_entries ++ [nlt_entry line])
    else nlt_loop cap rest word_count list_of_entries.
Proof.
  intros Hcap Hwf. unfold nlt_well_formed in Hwf.
  unfold nlt_survives, nlt_entry, field. simpl.
  destruct (split 44 line) as [|f0 [|f1 [|f2 tl]]]; simpl in Hwf; try lia.
  simpl.
  destruct (py_in (strip f1) _NLT_BLACKLISTED_WORD_TYPES || str_eqb (strip f0) []);
    simpl; [done|].
  destruct (symbols_for_else _BLACKLISTED_SYMBOLS (strip f0)); [done|].
  by rewrite (proj2 (N.eqb_neq _ _) Hcap).
Qed.

Lemma nlt_loop_malformed cap line rest word_count list_of_entries :
  ¬ nlt_well_formed line →
  nlt_loop cap (line :: rest) word_count list_of_entries = Raise IndexError.
Proof.
  intros Hwf. unfold nlt_well_formed in Hwf. simpl.
  destruct (split 44 line) as [|f0 [|f1 [|f2 tl]]]; simpl in *; try done. lia.
Qed.

(** Below the bound, the NLT loop appends the entries of the surviving
    lines until the count reaches the bound. *)
Lemma nlt_loop_spec cap lines word_count list_of_entries :
  word_count < cap → Forall nlt_well_formed lines →
  nlt_loop cap lines word_count list_of_entries =
    Ok (list_of_entries ++
        take (N.to_nat (cap - word_count))
             (nlt_entry <$> filter (λ line, nlt_survives line) lines)).
Proof.
  intros Hlt Hwf. revert word_count list_of_entries Hlt.
  induction Hwf as [|line lines Hline _ IH]; intros word_count list_of_entries Hlt.
  - simpl. by rewrite take_nil, app_nil_r.
  - rewrite nlt_loop_step by (done || lia).
    destruct (nlt_survives line) eqn:Hs.
    + rewrite filter_cons_True by (by rewrite Hs). rewrite fmap_cons.
      replace (N.to_nat (cap - word_count))
        with (S (N.to_nat (cap - (word_count + 1)))) by lia.
      simpl. destruct (N.eqb_spec (word_count + 1) cap) as [Heq|Hne].
      * replace (N.to_nat (cap - (word_count + 1))) with 0%nat by lia.
        by rewrite take_0.
      * rewrite IH by lia. by rewrite <- app_assoc.
    + rewrite filter_cons_False by (rewrite Hs; intros []). by apply IH.
Qed.

(** Once the bound is reached nothing further is read: what follows the
    lines that hold enough survivors is irrelevant, well formed or not. *)
Lemma nlt_loop_stops cap examined rest word_count list_of_entries :
  word_count < cap → Forall nlt_well_formed examined →
  (N.to_nat (cap - word_count)
     ≤ length (filter (λ line, nlt_survives line) examined))%nat →
  nlt_loop cap (examined ++ rest) word_count list_of_entries =
    nlt_loop cap examined word_count list_of_entries.
Proof.
  intros Hlt Hwf. revert word_count list_of_entries Hlt.
  induction Hwf as [|line lines Hline _ IH];
    intros word_count list_of_entries Hlt Hlen.
  - simpl in Hlen. lia.
  - rewrite <- app_comm_cons. rewrite !nlt_loop_step by (done || lia).
    destruct (nlt_survives line) eqn:Hs.
    + rewrite filter_cons_True in Hlen by (by rewrite Hs). simpl in Hlen.
      destruct (N.eqb_spec (word_count + 1) cap) as [Heq|Hne]; [done|].
      apply IH; lia.
    + rewrite filter_cons_False in Hlen by (rewrite Hs; intros []).
      by apply IH.
Qed.

Lemma bccwj_loop_step cap line rest word_count list_of_blacklisted_entries :
  bccwj_well_formed line →
  bccwj_loop cap (line :: rest) word_count list_of_blacklisted_entries =
    let blacklist :=
      if bccwj_blacklisted line
      then list_of_blacklisted_entries ++ [bccwj_entry line]
      else list_of_blacklisted_entries in
    if word_count + 1 =? cap then Ok blacklist
    else bccwj_loop cap rest (word_count + 1) blacklist.
Proof.
  intros Hwf. unfold bccwj_well_formed in Hwf.
  unfold bccwj_blacklisted, bccwj_entry, field. simpl.
  destruct (split 9 line) as [|f0 [|f1 [|f2 [|f3 tl]]]]; simpl in Hwf; try lia.
  done.
Qed.

(** The BCCWJ loop reads lines until the count of lines read reaches the
    bound, and records the entries of those whose type is blacklisted. *)
Lemma bccwj_loop_spec cap lines word_count list_of_blacklisted_entries :
  word_count < cap →
  Forall bccwj_well_formed (take (N.to_nat (cap - word_count)) lines) →
  bccwj_loop cap lines word_count list_of_blacklisted_entries =
    Ok (list_of_blacklisted_entries ++
        (bccwj_entry <$> filter (λ line, bccwj_blacklisted line)
                           (take (N.to_nat (cap - word_count)) lines))).
Proof.
  revert word_count list_of_blacklisted_entries.
  induction lines as [|line lines IH];
    intros word_count list_of_blacklisted_entries Hlt Hwf.
  - simpl. by rewrite take_nil, app_nil_r.
  - replace (N.to_nat (cap - word_count))
      with (S (N.to_nat (cap - (word_count + 1)))) in * by lia.
    simpl in Hwf. apply Forall_cons in Hwf as [Hline Hwf].
    rewrite bccwj_loop_step by done. simpl.
    destruct (N.eqb_spec (word_count + 1) cap) as [Heq|Hne].
    + replace (N.to_nat (cap - (word_count + 1))) with 0%nat by lia.
      rewrite take_0.
      destruct (bccwj_blacklisted line) eqn:Hb.
      * by rewrite filter_cons_True by (by rewrite Hb).
      * rewrite filter_cons_False by (rewrite Hb; intros []).
        by rewrite app_nil_r.
    + rewrite IH by (done || lia).
      destruct (bccwj_blacklisted line) eqn:Hb.
      * rewrite filter_cons_True by (by rewrite Hb).
        by rewrite <- app_assoc.
      * by rewrite filter_cons_False by (rewrite Hb; intros []).
Qed.

Local Transparent _NLT_BLACKLISTED_WORD_TYPES _BLACKLISTED_SYMBOLS
  _BCCWJ_BLACKLISTED_WORD_TYPES.

Lemma filter_replicate_True {A} (P : A → Prop) `{!∀ x, Decision (P x)} n x :
  P x → filter P (replicate n x) = replicate n x.
Proof.
  intros HP. induction n as [|n IH]; [done|]. simpl.
  by rewrite filter_cons_True, IH.
Qed.

Lemma nlt_survives_spec line :
  nlt_survives line ↔
  (field 44 1 line ∉ _NLT_BLACKLISTED_WORD_TYPES) ∧ field 44 0 line ≠ [] ∧
  ∀ symbol, symbol ∈ _BLACKLISTED_SYMBOLS → ¬ occurs_in symbol (field 44 0 line).
Proof.
  unfold nlt_survives, py_in, str_eqb.
  rewrite andb_True, negb_True, orb_True, !bool_decide_spec.
  rewrite Is_true_true, symbols_for_else_spec. tauto.
Qed.

Lemma bccwj_blacklisted_spec line :
  bccwj_blacklisted line ↔
  ∃ blacklisted_type, blacklisted_type ∈ _BCCWJ_BLACKLISTED_WORD_TYPES ∧
                      occurs_in blacklisted_type (field 9 3 line).
Proof.
  unfold bccwj_blacklisted. rewrite Is_true_true. apply type_is_blacklisted_spec.
Qed.

(** C5: the scan of the primary (NLT) corpus stops only once 51,000
    entries have survived the type-blacklist, empty-lemma and
    symbol-blacklist tests: it returns the first 51,000 surviving entries,
    however many discarded lines lie between them, and reads nothing after
    the line of the 51,000th survivor. The scan of the secondary (BCCWJ)
    corpus stops once 70,000 lines have been read: it records the
    blacklisted entries among the first 70,000 lines, whatever their
    number. *)
Theorem scans_stop_at_their_caps :
  (∀ examined rest : list str,
     Forall nlt_well_formed examined →
     rest = [] ∨
       (N.to_nat 51000 ≤ length (filter (λ line, nlt_survives line) examined))%nat →
     nlt_scan (examined ++ rest) =
       Ok (take (N.to_nat 51000)
             (nlt_entry <$> filter (λ line, nlt_survives line) examined))) ∧
  (∀ lines : list str,
     Forall bccwj_well_formed (take (N.to_nat 70000) lines) →
     bccwj_scan lines =
       Ok (bccwj_entry <$> filter (λ line, bccwj_blacklisted line)
                             (take (N.to_nat 70000) lines))) ∧
  (∀ line, nlt_survives line ↔
     (field 44 1 line ∉ _NLT_BLACKLISTED_WORD_TYPES) ∧ field 44 0 line ≠ [] ∧
     ∀ symbol, symbol ∈ _BLACKLISTED_SYMBOLS →
               ¬ occurs_in symbol (field 44 0 line)) ∧
  (∀ line, bccwj_blacklisted line ↔
     ∃ blacklisted_type, blacklisted_type ∈ _BCCWJ_BLACKLISTED_WORD_TYPES ∧
                         occurs_in blacklisted_type (field 9 3 line)).
Proof.
  split; [|split; [|split]].
  - intros examined rest Hwf Hrest. unfold nlt_scan.
    assert (Hscan : nlt_loop 51000 (examined ++ rest) 0 [] =
                    nlt_loop 51000 examined 0 []).
    { destruct Hrest as [-> | Hlen]; [by rewrite app_nil_r|].
      apply nlt_loop_stops; [lia | done |]. by rewrite N.sub_0_r. }
    rewrite Hscan, nlt_loop_spec by (done || lia).
    by rewrite N.sub_0_r.
  - intros lines Hwf. unfold bccwj_scan.
    rewrite bccwj_loop_spec; rewrite ?N.sub_0_r; done || lia.
  - apply nlt_survives_spec.
  - apply bccwj_blacklisted_spec.
Qed.

Lemma scans_stop_at_their_caps_witness :
  nlt_scan ([ln "勉強する,動詞,べんきょうする"; ln "は,助詞,は"; ln "8月,名詞,はちがつ";
             ln "犬,名詞,いぬ"] ++ []) =
    Ok (take (N.to_nat 51000)
          (nlt_entry <$> filter (λ line, nlt_survives line)
             [ln "勉強する,動詞,べんきょうする"; ln "は,助詞,は"; ln "8月,名詞,はちがつ";
              ln "犬,名詞,いぬ"])) ∧
  nlt_scan (replicate (N.to_nat 51000) (ln "犬,名詞,いぬ") ++ [ln "malformed"]) =
    Ok (take (N.to_nat 51000)
          (nlt_entry <$> filter (λ line, nlt_survives line)
             (replicate (N.to_nat 51000) (ln "犬,名詞,いぬ")))) ∧
  bccwj_scan [tsv ["1"; "カ"; "化"; "接尾辞-名詞的"; "x"]; tsv ["2"; "イヌ"; "犬"; "名詞-普通名詞-一般"; "x"]] =
    Ok (bccwj_entry <$> filter (λ line, bccwj_blacklisted line)
          (take (N.to_nat 70000)
             [tsv ["1"; "カ"; "化"; "接尾辞-名詞的"; "x"]; tsv ["2"; "イヌ"; "犬"; "名詞-普通名詞-一般"; "x"]])).
Proof.
  split; [|split].
  - apply (proj1 scans_stop_at_their_caps).
    + repeat constructor; vm_compute; lia.
    + left. reflexivity.
  - apply (proj1 scans_stop_at_their_caps).
    + apply Forall_replicate. vm_compute. lia.
    + right. rewrite filter_replicate_True, length_replicate by reflexivity. lia.
  - apply (proj1 (proj2 scans_stop_at_their_caps)).
    vm_compute. repeat constructor; vm_compute; lia.
Defined.

(** The same loops run with small bounds. With the bound 2, the NLT loop
    passes over two discarded lines, stops at its second survivor and
    never reads the malformed line that follows; reached before the
    second survivor, the malformed line makes the scan fail. The BCCWJ
    loop with the bound 2 stops after two lines, one of them blacklisted. *)
Example nlt_loop_small_cap :
  nlt_loop 2 [ln "勉強する,動詞,べんきょうする"; ln "は,助詞,は"; ln "8月,名詞,はちがつ";
              ln "犬,名詞,いぬ"; ln "malformed"; ln "猫,名詞,ねこ"] 0 [] =
    Ok [(u "勉強する", u "べんきょうする"); (u "犬", u "いぬ")] ∧
  nlt_loop 2 [ln "勉強する,動詞,べんきょうする"; ln "は,助詞,は"; ln "malformed";
              ln "犬,名詞,いぬ"] 0 [] = Raise IndexError.
Proof. split; vm_compute; reflexivity. Qed.

Example bccwj_loop_small_cap :
  bccwj_loop 2 [tsv ["1"; "カ"; "化"; "接尾辞-名詞的"; "x"]; tsv ["2"; "イヌ"; "犬"; "名詞-普通名詞-一般"; "x"];
                ln "malformed"; tsv ["3"; "テキ"; "的"; "接尾辞-形状詞的"; "x"]] 0 [] =
    Ok [(u "化", u "カ")].
Proof. vm_compute; reflexivity. Qed.

(** ** The loop that builds the list of words *)

Lemma blacklist_for_else_spec (blacklist : list entry) (e : entry) :
  blacklist_for_else blacklist e.1 e = true ↔ e ∉ blacklist.
Proof.
  induction blacklist as [|b blacklist IH]; simpl.
  - split; [intros _; apply not_elem_of_nil | done].
  - unfold str_eqb. rewrite not_elem_of_cons.
    destruct e as [lemma reading], b as [lemma' reading']; simpl in *.
    do 2 case_bool_decide; simpl; rewrite ?IH; split; try done;
      try (intros ?; split; [congruence | done]); try (intros [? ?]; done).
    intros [Hne _]. by subst.
Qed.

Lemma words_loop_cons blacklist e rest list_of_words :
  words_loop blacklist (e :: rest) list_of_words =
    words_loop blacklist rest
      (if decide (e ∈ blacklist) then list_of_words
       else if decide (remove_suru e.1 ∈ list_of_words) then list_of_words
       else list_of_words ++ [remove_suru e.1]).
Proof.
  simpl. destruct (blacklist_for_else blacklist e.1 e) eqn:Hb.
  - apply blacklist_for_else_spec in Hb. rewrite decide_False by done.
    unfold py_in. case_bool_decide; simpl.
    + by rewrite decide_True.
    + by rewrite decide_False.
  - rewrite decide_True; [done|].
    destruct (decide (e ∈ blacklist)) as [|Hn]; [done|].
    apply blacklist_for_else_spec in Hn. congruence.
Qed.

Lemma words_loop_app blacklist l1 l2 list_of_words :
  words_loop blacklist (l1 ++ l2) list_of_words =
    words_loop blacklist l2 (words_loop blacklist l1 list_of_words).
Proof.
  revert list_of_words. induction l1 as [|e l1 IH]; intros list_of_words.
  - done.
  - rewrite <- app_comm_cons, !words_loop_cons. apply IH.
Qed.

Lemma words_loop_NoDup blacklist entries list_of_words :
  NoDup list_of_words → NoDup (words_loop blacklist entries list_of_words).
Proof.
  revert list_of_words.
  induction entries as [|e entries IH]; intros list_of_words Hnd; [done|].
  rewrite words_loop_cons. apply IH.
  repeat case_decide; try done.
  apply NoDup_app. split; [done|]. split; [|apply NoDup_singleton].
  intros w Hw ->%list_elem_of_singleton. done.
Qed.

Lemma first_occurrences_snoc l w :
  first_occurrences (l ++ [w]) =
    if decide (w ∈ first_occurrences l) then first_occurrences l
    else first_occurrences l ++ [w].
Proof.
  unfold first_occurrences. rewrite reverse_snoc. simpl.
  destruct (decide_rel elem_of w (reverse l)) as [Hin|Hin].
  - rewrite decide_True; [done|].
    by rewrite elem_of_reverse, elem_of_remove_dups.
  - rewrite decide_False; [by rewrite reverse_cons|].
    by rewrite elem_of_reverse, elem_of_remove_dups.
Qed.

Lemma words_loop_snoc blacklist entries e :
  words_loop blacklist (entries ++ [e]) [] =
    let retained := words_loop blacklist entries [] in
    if decide (e ∈ blacklist) then retained
    else if decide (remove_suru e.1 ∈ retained) then retained
    else retained ++ [remove_suru e.1].
Proof. by rewrite words_loop_app, words_loop_cons. Qed.

Lemma words_loop_first_occurrences blacklist entries :
  words_loop blacklist entries [] =
    first_occurrences
      ((λ e, remove_suru e.1) <$> filter (λ e, e ∉ blacklist) entries).
Proof.
  induction entries as [|e entries IH] using rev_ind; [done|].
  rewrite words_loop_snoc, filter_app. simpl. rewrite IH.
  destruct (decide (e ∈ blacklist)) as [Hin|Hin].
  - rewrite filter_cons_False by tauto. by rewrite filter_nil, app_nil_r.
  - rewrite filter_cons_True by done. rewrite filter_nil, fmap_app. simpl.
    by rewrite first_occurrences_snoc.
Qed.

Lemma suru_length : length suru = 2%nat.
Proof. reflexivity. Qed.

Lemma remove_suru_strips stem :
  stem ≠ [] → remove_suru (stem ++ suru) = stem.
Proof.
  intros Hstem. unfold remove_suru, str_eqb, slice_last2, slice_but_last2.
  rewrite length_app, suru_length.
  replace (length stem + 2 - 2)%nat with (length stem) by lia.
  rewrite drop_app_length, take_app_length.
  rewrite bool_decide_eq_false_2, bool_decide_eq_true_2; [done | done |].
  intros Heq. apply (f_equal length) in Heq.
  rewrite length_app in Heq. destruct stem; [done | simpl in Heq; lia].
Qed.

Lemma remove_suru_keeps lemma :
  lemma = suru ∨ ¬ suru `suffix_of` lemma → remove_suru lemma = lemma.
Proof.
  intros Hcase. unfold remove_suru, str_eqb.
  destruct Hcase as [-> | Hns]; [by rewrite bool_decide_eq_true_2|].
  rewrite (bool_decide_eq_false_2 (slice_last2 lemma = suru));
    [by rewrite andb_false_r|].
  intros Hlast. apply Hns. exists (slice_but_last2 lemma).
  rewrite <- Hlast. unfold slice_last2, slice_but_last2.
  by rewrite take_drop.
Qed.

(** C2 (as amended): in the suffix-normalization step a lemma is
    stripped of its last two characters exactly when it ends in する and is
    not する itself: 食べする is stripped to 食べ, 勉強する is stripped to 勉強,
    and する is left unchanged, as is every lemma that does not end in
    する. *)
Theorem suru_suffix_is_stripped :
  candidate_list [ln "食べする,動詞,たべする"] [] = Ok [u "食べ"] ∧
  candidate_list [ln "勉強する,動詞,べんきょうする"] [] = Ok [u "勉強"] ∧
  candidate_list [ln "する,動詞,する"] [] = Ok [u "する"] ∧
  (∀ stem, stem ≠ [] → remove_suru (stem ++ suru) = stem) ∧
  (∀ lemma, lemma = suru ∨ ¬ suru `suffix_of` lemma → remove_suru lemma = lemma).
Proof.
  split; [vm_compute; reflexivity|]. split; [vm_compute; reflexivity|].
  split; [vm_compute; reflexivity|]. split.
  - apply remove_suru_strips.
  - apply remove_suru_keeps.
Qed.

Lemma suru_suffix_is_stripped_witness :
  remove_suru (u "食べ" ++ suru) = u "食べ" ∧ remove_suru (u "走る") = u "走る".
Proof.
  destruct suru_suffix_is_stripped as (_ & _ & _ & Hstrip & Hkeep). split.
  - apply Hstrip. discriminate.
  - apply Hkeep. right. intros [k Hk]. vm_compute in Hk.
    destruct k as [|c0 [|c1 [|c2 k]]]; discriminate.
Defined.

(** C2 as stated fails: the lemma 食べする ends in する and is stripped. *)
Lemma tabesuru_is_stripped :
  remove_suru (u "食べする") ≠ u "食べする" ∧
  candidate_list [ln "食べする,動詞,たべする"] [] ≠ Ok [u "食べする"].
Proof. split; vm_compute; discriminate. Qed.

(** The reconciliation scenario of the design document. *)
Example candidate_list_scenario :
  candidate_list [ln "勉強する,動詞,べんきょうする"; ln "犬,名詞,いぬ"] [] =
    Ok [u "勉強"; u "犬"].
Proof. vm_compute; reflexivity. Qed.

(** C3: a primary entry is compared with the blacklist by its lemma as
    read, before any stripping, together with its reading, and is dropped
    on a match; a surviving entry is compared with the words retained so
    far by its stripped lemma, and is dropped when that word is already
    there, so that the earlier occurrence stays. *)
Theorem exclusion_before_strip_dedup_after :
  (∀ (blacklist entries : list entry) (lemma reading : str),
     words_loop blacklist (entries ++ [(lemma, reading)]) [] =
       let retained := words_loop blacklist entries [] in
       if decide ((lemma, reading) ∈ blacklist) then retained
       else if decide (remove_suru lemma ∈ retained) then retained
       else retained ++ [remove_suru lemma]) ∧
  words_loop [(u "勉強する", u "べんきょう")]
             [(u "勉強", u "べんきょう"); (u "勉強する", u "べんきょう")] []
    = [u "勉強"] ∧
  words_loop [(u "勉強する", u "べんきょう")] [(u "勉強する", u "べんきょう")] [] = [] ∧
  words_loop [(u "勉強", u "べんきょう")] [(u "勉強する", u "べんきょう")] []
    = [u "勉強"] ∧
  words_loop [] [(u "勉強", u "べんきょう"); (u "勉強する", u "べんきょうする")] []
    = [u "勉強"].
Proof.
  split; [|repeat split; vm_compute; reflexivity].
  intros blacklist entries lemma reading.
  apply (words_loop_snoc blacklist entries (lemma, reading)).
Qed.

(** C6: for every list of primary entries and every blacklist drawn from
    the secondary corpus, the list of candidate words has no duplicates:
    it holds each stripped lemma of a non-excluded entry once, at the place
    of its first occurrence in the scan order. *)
Theorem candidate_list_no_duplicates :
  (∀ blacklist entries : list entry,
     NoDup (words_loop blacklist entries []) ∧
     words_loop blacklist entries [] =
       first_occurrences
         ((λ e, remove_suru e.1) <$> filter (λ e, e ∉ blacklist) entries)) ∧
  (∀ (nlt_database_file bccwj_database_file : list str) (list_of_words : list str),
     candidate_list nlt_database_file bccwj_database_file = Ok list_of_words →
     NoDup list_of_words).
Proof.
  split.
  - intros blacklist entries. split.
    + apply words_loop_NoDup, NoDup_nil_2.
    + apply words_loop_first_occurrences.
  - intros nlt bccwj ws. unfold candidate_list.
    destruct (nlt_scan nlt) as [entries|]; [|done].
    destruct (bccwj_scan bccwj) as [blacklist|]; [|done]. simpl.
    intros [= <-]. apply words_loop_NoDup, NoDup_nil_2.
Qed.

Lemma candidate_list_no_duplicates_witness :
  candidate_list
    [ln "勉強する,動詞,べんきょうする"; ln "犬,名詞,いぬ"; ln "勉強,名詞,べんきょう"]
    [tsv ["1"; "カ"; "化"; "接尾辞-名詞的"; "x"]] = Ok [u "勉強"; u "犬"] ∧
  NoDup [u "勉強"; u "犬"].
Proof.
  assert (Hrun : candidate_list
    [ln "勉強する,動詞,べんきょうする"; ln "犬,名詞,いぬ"; ln "勉強,名詞,べんきょう"]
    [tsv ["1"; "カ"; "化"; "接尾辞-名詞的"; "x"]] = Ok [u "勉強"; u "犬"])
    by (vm_compute; reflexivity).
  split; [exact Hrun|].
  exact (proj2 candidate_list_no_duplicates _ _ _ Hrun).
Defined.

(** * Further properties of the filters *)

Section filters_as_list_filters.
Context `{Countable K}.
Implicit Types (self : WaniKaniHandler K) (W S : list str) (w : str).

(** Each filter is one list filter whose test is the base test of the
    word, flipped by [invert_filter]. *)
Lemma known_words_as_filter self S invert_filter W :
  get_known_vocabulary_list self = Ok S →
  filter_out_known_words self W invert_filter =
    Ok (filter (λ w, xorb (negb (py_in w S)) invert_filter) W).
Proof.
  intros HS. unfold filter_out_known_words. rewrite HS. simpl.
  by rewrite append_kept_filter.
Qed.

Lemma unknown_kanji_as_filter self S invert_filter W :
  get_known_kanji_list self = Ok S →
  filter_out_unknown_kanji self W invert_filter =
    Ok (filter (λ w, xorb (for_else (KANA_LIST ++ S) w) invert_filter) W).
Proof.
  intros HS. unfold filter_out_unknown_kanji. rewrite HS. simpl.
  destruct invert_filter; simpl; rewrite append_kept_filter; f_equal;
    apply filter_ext_list; intros w; by destruct (for_else _ w).
Qed.

Lemma kana_words_as_filter invert_filter W :
  filter_out_kana_words W invert_filter =
    filter (λ w, xorb (for_else KANA_LIST w) (negb invert_filter)) W.
Proof.
  unfold filter_out_kana_words.
  destruct invert_filter; simpl; rewrite append_kept_filter;
    apply filter_ext_list; intros w; by destruct (for_else _ w).
Qed.

Lemma filter_idemp {A} (P : A → Prop) `{!∀ x, Decision (P x)} (l : list A) :
  filter P (filter P l) = filter P l.
Proof. rewrite list_filter_filter. apply list_filter_iff. tauto. Qed.

Lemma filter_comm {A} (P Q : A → Prop) `{!∀ x, Decision (P x)}
    `{!∀ x, Decision (Q x)} (l : list A) :
  filter P (filter Q l) = filter Q (filter P l).
Proof. rewrite !list_filter_filter. apply list_filter_iff. tauto. Qed.

Lemma for_else_ext (known1 known2 : list str) w :
  (∀ c : char, [c] ∈ known1 ↔ [c] ∈ known2) →
  for_else known1 w = for_else known2 w.
Proof.
  intros Hsame. induction w as [|c w IH]; [done|]. simpl. rewrite IH.
  unfold py_in. by rewrite (bool_decide_ext _ _ (Hsame c)).
Qed.

Lemma for_else_singletons S w :
  for_else (KANA_LIST ++ filter (λ s, length s = 1%nat) S) w =
  for_else (KANA_LIST ++ S) w.
Proof.
  apply for_else_ext. intros c.
  rewrite !elem_of_app, list_elem_of_filter. simpl. tauto.
Qed.

End filters_as_list_filters.

(** X1: with the known vocabulary [S], [filter_out_known_words] returns
    the words of the list that are not in [S], and with [invert_filter]
    those that are in [S], each in its place and as often as it occurs. *)
Theorem known_words_filter_keeps_unknown `{Countable K}
    (self : WaniKaniHandler K) (S W : list str) :
  get_known_vocabulary_list self = Ok S →
  filter_out_known_words self W false = Ok (filter (λ w, w ∉ S) W) ∧
  filter_out_known_words self W true = Ok (filter (λ w, w ∈ S) W).
Proof. apply known_words_closed. Qed.

Lemma known_words_filter_keeps_unknown_witness :
  get_known_vocabulary_list scenario_handler = Ok [u "食べる"] ∧
  filter_out_known_words scenario_handler scenario_words false =
    Ok (filter (λ w, w ∉ [u "食べる"]) scenario_words) ∧
  filter_out_known_words scenario_handler scenario_words true =
    Ok (filter (λ w, w ∈ [u "食べる"]) scenario_words).
Proof.
  split; [reflexivity|].
  apply (known_words_filter_keeps_unknown scenario_handler). reflexivity.
Defined.

(** X2: [filter_out_kana_words] returns the words that have a character
    outside the kana list, and with [invert_filter] the words written in
    kana only; no handler state is read, so it cannot fail. *)
Theorem kana_filter_keeps_words_with_kanji (W : list str) :
  filter_out_kana_words W false = filter (λ w, ¬ kana_only w) W ∧
  filter_out_kana_words W true = filter kana_only W ∧
  (∀ w, kana_only w ↔ ∀ c, c ∈ w → [c] ∈ KANA_LIST).
Proof.
  destruct (kana_words_closed W) as [H0 H1]. split; [done|]. split; [done|].
  intros w. unfold kana_only, is_kana. apply Forall_forall.
Qed.

(** X3: filtering the output of a filter again, with the same handler and
    the same flag, changes nothing. *)
Theorem filters_are_idempotent `{Countable K} (self : WaniKaniHandler K)
    (W : list str) (invert_filter : bool) :
  (∀ S, get_known_vocabulary_list self = Ok S →
     ∃ r, filter_out_known_words self W invert_filter = Ok r ∧
          filter_out_known_words self r invert_filter = Ok r) ∧
  (∀ S, get_known_kanji_list self = Ok S →
     ∃ r, filter_out_unknown_kanji self W invert_filter = Ok r ∧
          filter_out_unknown_kanji self r invert_filter = Ok r) ∧
  filter_out_kana_words (filter_out_kana_words W invert_filter) invert_filter =
    filter_out_kana_words W invert_filter.
Proof.
  split; [|split].
  - intros S HS. eexists. split; [by apply known_words_as_filter|].
    rewrite (known_words_as_filter self S) by done. by rewrite filter_idemp.
  - intros S HS. eexists. split; [by apply unknown_kanji_as_filter|].
    rewrite (unknown_kanji_as_filter self S) by done. by rewrite filter_idemp.
  - rewrite !kana_words_as_filter. apply filter_idemp.
Qed.

Lemma filters_are_idempotent_witness :
  (∃ r, filter_out_known_words scenario_handler scenario_words false = Ok r ∧
        filter_out_known_words scenario_handler r false = Ok r) ∧
  (∃ r, filter_out_unknown_kanji scenario_handler scenario_words true = Ok r ∧
        filter_out_unknown_kanji scenario_handler r true = Ok r).
Proof.
  split.
  - apply (proj1 (filters_are_idempotent scenario_handler scenario_words false)
             [u "食べる"]). reflexivity.
  - apply (proj1 (proj2 (filters_are_idempotent scenario_handler scenario_words true))
             [u "食"]). reflexivity.
Defined.

(** X4: the two results of a filter, without and with [invert_filter],
    together hold every word of the input as often as the input does: one
    followed by the other is a permutation of the input. *)
Theorem invert_splits_the_list `{Countable K} (self : WaniKaniHandler K)
    (W : list str) :
  (∀ S, get_known_vocabulary_list self = Ok S →
     ∃ r0 r1, filter_out_known_words self W false = Ok r0 ∧
              filter_out_known_words self W true = Ok r1 ∧
              r0 ++ r1 ≡ₚ W) ∧
  (∀ S, get_known_kanji_list self = Ok S →
     ∃ r0 r1, filter_out_unknown_kanji self W false = Ok r0 ∧
              filter_out_unknown_kanji self W true = Ok r1 ∧
              r0 ++ r1 ≡ₚ W) ∧
  filter_out_kana_words W false ++ filter_out_kana_words W true ≡ₚ W.
Proof.
  split; [|split].
  - intros S HS. destruct (known_words_closed self S W HS) as [-> ->].
    eexists _, _. split; [done|]. split; [done|].
    rewrite (comm (++)). apply (filter_app_complement (λ w, w ∈ S)).
  - intros S HS. destruct (unknown_kanji_closed self S W HS) as [-> ->].
    eexists _, _. split; [done|]. split; [done|].
    apply (filter_app_complement (fully_known S)).
  - destruct (kana_words_closed W) as [-> ->].
    rewrite (comm (++)). apply (filter_app_complement kana_only).
Qed.

Lemma invert_splits_the_list_witness :
  (∃ r0 r1, filter_out_known_words scenario_handler scenario_words false = Ok r0 ∧
            filter_out_known_words scenario_handler scenario_words true = Ok r1 ∧
            r0 ++ r1 ≡ₚ scenario_words) ∧
  (∃ r0 r1, filter_out_unknown_kanji scenario_handler scenario_words false = Ok r0 ∧
            filter_out_unknown_kanji scenario_handler scenario_words true = Ok r1 ∧
            r0 ++ r1 ≡ₚ scenario_words).
Proof.
  destruct (invert_splits_the_list scenario_handler scenario_words)
    as (Hwords & Hkanji & _).
  split.
  - apply (Hwords [u "食べる"]). reflexivity.
  - apply (Hkanji [u "食"]). reflexivity.
Defined.

(** X5: the filters commute: applying two of them one after the other
    gives the same list in either order, whatever the two flags. *)
Theorem filters_commute `{Countable K} (self : WaniKaniHandler K)
    (KV KK W : list str) (i1 i2 : bool) :
  get_known_vocabulary_list self = Ok KV →
  get_known_kanji_list self = Ok KK →
  (∃ a b, filter_out_known_words self W i1 = Ok a ∧
          filter_out_unknown_kanji self W i2 = Ok b ∧
          filter_out_unknown_kanji self a i2 = filter_out_known_words self b i1) ∧
  (∃ a, filter_out_known_words self W i1 = Ok a ∧
        Ok (filter_out_kana_words a i2) =
          filter_out_known_words self (filter_out_kana_words W i2) i1) ∧
  (∃ b, filter_out_unknown_kanji self W i1 = Ok b ∧
        Ok (filter_out_kana_words b i2) =
          filter_out_unknown_kanji self (filter_out_kana_words W i2) i1).
Proof.
  intros HV HK. split; [|split].
  - eexists _, _. split; [by apply known_words_as_filter|].
    split; [by apply unknown_kanji_as_filter|].
    rewrite (unknown_kanji_as_filter self KK), (known_words_as_filter self KV)
      by done.
    f_equal. apply filter_comm.
  - eexists. split; [by apply known_words_as_filter|].
    rewrite (known_words_as_filter self KV), !kana_words_as_filter by done.
    f_equal. apply filter_comm.
  - eexists. split; [by apply unknown_kanji_as_filter|].
    rewrite (unknown_kanji_as_filter self KK), !kana_words_as_filter by done.
    f_equal. apply filter_comm.
Qed.

Lemma filters_commute_witness :
  get_known_vocabulary_list scenario_handler = Ok [u "食べる"] ∧
  get_known_kanji_list scenario_handler = Ok [u "食"] ∧
  ∃ a b, filter_out_known_words scenario_handler scenario_words false = Ok a ∧
         filter_out_unknown_kanji scenario_handler scenario_words true = Ok b ∧
         filter_out_unknown_kanji scenario_handler a true =
           filter_out_known_words scenario_handler b false.
Proof.
  split; [reflexivity|]. split; [reflexivity|].
  apply (filters_commute scenario_handler [u "食べる"] [u "食"] scenario_words
           false true); reflexivity.
Defined.

(** X6: when the user knows no kanji, [filter_out_unknown_kanji] is
    [filter_out_kana_words] with the opposite flag: without
    [invert_filter] the first keeps the kana-only words, which the second
    keeps with [invert_filter]. *)
Theorem no_known_kanji_is_kana_filter `{Countable K} (self : WaniKaniHandler K)
    (W : list str) (invert_filter : bool) :
  get_known_kanji_list self = Ok [] →
  filter_out_unknown_kanji self W invert_filter =
    Ok (filter_out_kana_words W (negb invert_filter)).
Proof.
  intros HS. rewrite (unknown_kanji_as_filter self []) by done.
  rewrite kana_words_as_filter, negb_involutive, app_nil_r. done.
Qed.

Lemma no_known_kanji_is_kana_filter_witness :
  filter_out_unknown_kanji
    {| _data_dictionary := {|
         user_kanji_assignments := Some ([] : list (Z * Z));
         user_vocabulary_assignments := None;
         all_kanji_subjects := None;
         all_vocabulary_subjects := None |} |}
    [u "たべる"; u "食べる"] false =
  Ok (filter_out_kana_words [u "たべる"; u "食べる"] (negb false)).
Proof. apply no_known_kanji_is_kana_filter. reflexivity. Defined.

(** X7: a known subject that is not a single character never makes a
    word known: the characters of a word are compared one by one with the
    known strings, so [filter_out_unknown_kanji] gives the same result as
    with the single-character subjects alone. *)
Theorem only_single_character_subjects_count `{Countable K}
    (self : WaniKaniHandler K) (S W : list str) :
  get_known_kanji_list self = Ok S →
  filter_out_unknown_kanji self W false =
    Ok (filter (fully_known (filter (λ s, length s = 1%nat) S)) W) ∧
  filter_out_unknown_kanji self W true =
    Ok (filter (λ w, ¬ fully_known (filter (λ s, length s = 1%nat) S) w) W).
Proof.
  intros HS. destruct (unknown_kanji_closed self S W HS) as [-> ->].
  assert (Hsame : ∀ w, fully_known S w ↔
                       fully_known (filter (λ s, length s = 1%nat) S) w).
  { intros w. rewrite <- !for_else_fully_known. by rewrite for_else_singletons. }
  split; f_equal; apply list_filter_iff; intros w; by rewrite (Hsame w).
Qed.

Lemma only_single_character_subjects_count_witness :
  filter_out_unknown_kanji
    {| _data_dictionary := {|
         user_kanji_assignments := Some [(1%Z, 5%Z)];
         user_vocabulary_assignments := None;
         all_kanji_subjects := Some {[ 1%Z := u "食物" ]};
         all_vocabulary_subjects := None |} |}
    [u "食べる"; u "たべる"] false =
  Ok (filter (fully_known (filter (λ s, length s = 1%nat) [u "食物"]))
        [u "食べる"; u "たべる"]).
Proof.
  apply (only_single_character_subjects_count
           {| _data_dictionary := {|
                user_kanji_assignments := Some [(1%Z, 5%Z)];
                user_vocabulary_assignments := None;
                all_kanji_subjects := Some {[ 1%Z := u "食物" ]};
                all_vocabulary_subjects := None |} |}
           [u "食物"]).
  reflexivity.
Defined.

(** * Further properties of [generate_frequent_words] *)

(** X8: whatever [num_of_words] is, negative included, the result is an
    initial segment of the stored list; for a count that is not negative
    it has [min num_of_words (len words_list)] words. *)
Theorem generate_frequent_words_is_prefix (L : list str) (n : Z) :
  generate_frequent_words L n `prefix_of` L ∧
  ((0 ≤ n)%Z →
     length (generate_frequent_words L n) = Nat.min (Z.to_nat n) (length L)) ∧
  ((n < 0)%Z →
     length (generate_frequent_words L n) = (length L - Z.to_nat (- n))%nat).
Proof.
  unfold generate_frequent_words, slice_to.
  destruct (Z.ltb_spec (Z.of_nat (length L)) n) as [Hlt|Hge].
  - split; [done|]. split; intros Hn; lia.
  - destruct (Z.ltb_spec n 0) as [Hneg|Hpos].
    + split; [apply prefix_take|]. split; intros Hn; [lia|].
      rewrite length_take. lia.
    + split; [apply prefix_take|]. split; intros Hn; [|lia].
      by rewrite length_take.
Qed.

Lemma generate_frequent_words_is_prefix_witness :
  length (generate_frequent_words scenario_words 2) = 2%nat ∧
  length (generate_frequent_words scenario_words (-1)) = 2%nat.
Proof.
  destruct (generate_frequent_words_is_prefix scenario_words 2) as (_ & Hpos & _).
  destruct (generate_frequent_words_is_prefix scenario_words (-1)) as (_ & _ & Hneg).
  split; [apply Hpos | apply Hneg]; lia.
Defined.

(** * Further properties of the candidate list *)

Local Opaque _NLT_BLACKLISTED_WORD_TYPES _BLACKLISTED_SYMBOLS
  _BCCWJ_BLACKLISTED_WORD_TYPES.

(** When the NLT loop returns, the lines it has read are well formed and
    its result is read off them. *)
Lemma nlt_loop_Ok_inv cap lines word_count list_of_entries r :
  word_count < cap →
  nlt_loop cap lines word_count list_of_entries = Ok r →
  ∃ examined rest,
    lines = examined ++ rest ∧ Forall nlt_well_formed examined ∧
    r = list_of_entries ++
        take (N.to_nat (cap - word_count))
             (nlt_entry <$> filter (λ line, nlt_survives line) examined).
Proof.
  revert word_count list_of_entries.
  induction lines as [|line lines IH]; intros word_count list_of_entries Hlt Hr.
  - exists [], []. simpl in *. injection Hr as <-.
    by rewrite take_nil, app_nil_r.
  - destruct (Nat.le_gt_cases 3 (length (split 44 line))) as [Hwf|Hbad].
    + rewrite nlt_loop_step in Hr by (done || lia).
      destruct (nlt_survives line) eqn:Hs.
      * destruct (N.eqb_spec (word_count + 1) cap) as [Heq|Hne].
        -- injection Hr as <-. exists [line], lines.
           split; [done|]. split; [by repeat constructor|].
           rewrite filter_cons_True by (by rewrite Hs). simpl.
           replace (N.to_nat (cap - word_count)) with 1%nat by lia. done.
        -- apply IH in Hr as (examined & rest & -> & Hall & ->); [|lia].
           exists (line :: examined), rest.
           split; [done|]. split; [by constructor|].
           rewrite filter_cons_True by (by rewrite Hs). rewrite fmap_cons.
           replace (N.to_nat (cap - word_count))
             with (S (N.to_nat (cap - (word_count + 1)))) by lia.
           simpl. by rewrite <- app_assoc.
      * apply IH in Hr as (examined & rest & -> & Hall & ->); [|lia].
        exists (line :: examined), rest.
        split; [done|]. split; [by constructor|].
        by rewrite filter_cons_False by (rewrite Hs; intros []).
    + rewrite nlt_loop_malformed in Hr; [done|].
      unfold nlt_well_formed. lia.
Qed.

Lemma bccwj_loop_malformed cap line rest word_count blacklist :
  ¬ bccwj_well_formed line →
  bccwj_loop cap (line :: rest) word_count blacklist = Raise IndexError.
Proof.
  intros Hwf. unfold bccwj_well_formed in Hwf. simpl.
  destruct (split 9 line) as [|f0 [|f1 [|f2 [|f3 tl]]]]; simpl in *; try done.
  lia.
Qed.

Local Transparent _NLT_BLACKLISTED_WORD_TYPES _BLACKLISTED_SYMBOLS
  _BCCWJ_BLACKLISTED_WORD_TYPES.

Lemma nlt_scan_Ok_inv lines r :
  nlt_scan lines = Ok r →
  ∃ examined rest,
    lines = examined ++ rest ∧ Forall nlt_well_formed examined ∧
    r = take (N.to_nat 51000)
          (nlt_entry <$> filter (λ line, nlt_survives line) examined).
Proof.
  intros Hr. apply nlt_loop_Ok_inv in Hr as (examined & rest & ? & ? & ->);
    [|lia].
  exists examined, rest. by rewrite N.sub_0_r.
Qed.

Lemma remove_suru_cases lemma :
  remove_suru lemma = lemma ∨
  (remove_suru lemma = slice_but_last2 lemma ∧ lemma ≠ suru ∧
   slice_last2 lemma = suru).
Proof.
  unfold remove_suru, str_eqb. do 2 case_bool_decide; simpl; auto.
Qed.

Lemma remove_suru_prefix lemma : remove_suru lemma `prefix_of` lemma.
Proof.
  destruct (remove_suru_cases lemma) as [-> | (-> & _ & _)]; [done|].
  apply prefix_take.
Qed.

Lemma remove_suru_nonempty lemma : lemma ≠ [] → remove_suru lemma ≠ [].
Proof.
  intros Hne. destruct (remove_suru_cases lemma) as [-> | (-> & Hns & Hlast)];
    [done|].
  unfold slice_but_last2, slice_last2 in *. intros Hnil.
  apply Hns. rewrite <- Hlast.
  rewrite <- (take_drop (length lemma - 2) lemma) at 1. by rewrite Hnil.
Qed.

Lemma occurs_in_prefix (sub p s : str) :
  p `prefix_of` s → occurs_in sub p → occurs_in sub s.
Proof.
  intros [k ->] (pre & post & ->). exists pre, (post ++ k).
  by rewrite <- !app_assoc.
Qed.

Lemma elem_of_first_occurrences (l : list str) w :
  w ∈ first_occurrences l ↔ w ∈ l.
Proof.
  unfold first_occurrences.
  by rewrite elem_of_reverse, elem_of_remove_dups, elem_of_reverse.
Qed.

Lemma elem_of_words_loop blacklist entries w :
  w ∈ words_loop blacklist entries [] ↔
  ∃ e, e ∈ entries ∧ (e ∉ blacklist) ∧ w = remove_suru e.1.
Proof.
  rewrite words_loop_first_occurrences, elem_of_first_occurrences,
    list_elem_of_fmap.
  split.
  - intros (e & -> & [Hb He]%list_elem_of_filter). by exists e.
  - intros (e & He & Hb & ->). exists e. split; [done|].
    by apply list_elem_of_filter.
Qed.

Lemma length_first_occurrences (l : list str) :
  (length (first_occurrences l) ≤ length l)%nat.
Proof.
  unfold first_occurrences. rewrite length_reverse, <- (length_reverse l).
  apply sublist_length. generalize (reverse l). intros k.
  induction k as [|x k IH]; simpl; [done|].
  destruct (decide_rel elem_of x k); [by apply sublist_cons | by apply sublist_skip].
Qed.

(** X9: on files whose lines have the fields that are read, the build of
    the candidate list succeeds, and its result is: the first 51,000
    surviving NLT entries, without those whose lemma and reading are
    blacklisted by one of the first 70,000 BCCWJ lines, their lemmas
    stripped of する, each word kept at its first occurrence. *)
Theorem candidate_list_closed_form (nlt_database_file bccwj_database_file : list str) :
  Forall nlt_well_formed nlt_database_file →
  Forall bccwj_well_formed (take (N.to_nat 70000) bccwj_database_file) →
  candidate_list nlt_database_file bccwj_database_file =
    let list_of_entries :=
      take (N.to_nat 51000)
        (nlt_entry <$> filter (λ line, nlt_survives line) nlt_database_file) in
    let list_of_blacklisted_entries :=
      bccwj_entry <$> filter (λ line, bccwj_blacklisted line)
                        (take (N.to_nat 70000) bccwj_database_file) in
    Ok (first_occurrences
          ((λ e, remove_suru e.1)
             <$> filter (λ e, e ∉ list_of_blacklisted_entries) list_of_entries)).
Proof.
  intros Hnlt Hbccwj. unfold candidate_list, nlt_scan, bccwj_scan.
  rewrite nlt_loop_spec, bccwj_loop_spec by (rewrite ?N.sub_0_r; done || lia).
  simpl. rewrite !N.sub_0_r. by rewrite words_loop_first_occurrences.
Qed.

Lemma candidate_list_closed_form_witness :
  candidate_list
    [ln "勉強する,動詞,べんきょうする"; ln "化,名詞,カ"; ln "勉強,名詞,べんきょう"]
    [tsv ["1"; "カ"; "化"; "接尾辞-名詞的"; "x"]] =
  Ok (first_occurrences
        ((λ e, remove_suru e.1)
           <$> filter
                 (λ e, e ∉ bccwj_entry
                         <$> filter (λ line, bccwj_blacklisted line)
                               (take (N.to_nat 70000)
                                  [tsv ["1"; "カ"; "化"; "接尾辞-名詞的"; "x"]]))
                 (take (N.to_nat 51000)
                    (nlt_entry <$> filter (λ line, nlt_survives line)
                       [ln "勉強する,動詞,べんきょうする"; ln "化,名詞,カ";
                        ln "勉強,名詞,べんきょう"])))).
Proof.
  apply candidate_list_closed_form.
  - repeat constructor; vm_compute; lia.
  - vm_compute. repeat constructor; vm_compute; lia.
Defined.

(** X10: whatever the two files hold, a candidate list that is returned
    has at most 51,000 words, and each of them is the stripped lemma of a
    surviving NLT line, is not empty and contains none of the blacklisted
    symbols. *)
Theorem candidate_words_are_clean
    (nlt_database_file bccwj_database_file : list str) (list_of_words : list str) :
  candidate_list nlt_database_file bccwj_database_file = Ok list_of_words →
  (length list_of_words ≤ N.to_nat 51000)%nat ∧
  ∀ w, w ∈ list_of_words →
    w ≠ [] ∧
    (∀ symbol, symbol ∈ _BLACKLISTED_SYMBOLS → ¬ occurs_in symbol w) ∧
    ∃ line, line ∈ nlt_database_file ∧ nlt_survives line ∧
            w = remove_suru (field 44 0 line).
Proof.
  unfold candidate_list. intros Hrun.
  destruct (nlt_scan nlt_database_file) as [entries|] eqn:Hnlt; [|done].
  destruct (bccwj_scan bccwj_database_file) as [blacklist|]; [|done].
  simpl in Hrun. injection Hrun as <-.
  apply nlt_scan_Ok_inv in Hnlt as (examined & rest & -> & Hwf & ->).
  split.
  - rewrite words_loop_first_occurrences.
    etrans; [apply length_first_occurrences|].
    rewrite length_fmap. etrans; [apply length_filter|].
    rewrite length_take. lia.
  - intros w (e & He & _ & ->)%elem_of_words_loop.
    apply (subseteq_take (N.to_nat 51000)) in He.
    apply list_elem_of_fmap in He as (line & -> & [Hs Hline]%list_elem_of_filter).
    pose proof (proj1 (nlt_survives_spec line) Hs) as (_ & Hne & Hsym).
    simpl. split; [by apply remove_suru_nonempty|]. split.
    + intros symbol Hin Hocc. apply (Hsym symbol Hin).
      eapply occurs_in_prefix; [apply remove_suru_prefix | done].
    + exists line. split; [|done]. apply elem_of_app. by left.
Qed.

Lemma candidate_words_are_clean_witness :
  candidate_list [ln "勉強する,動詞,べんきょうする"; ln "8月,名詞,はちがつ"] [] =
    Ok [u "勉強"] ∧
  (length [u "勉強"] ≤ N.to_nat 51000)%nat.
Proof.
  assert (Hrun : candidate_list
            [ln "勉強する,動詞,べんきょうする"; ln "8月,名詞,はちがつ"] [] =
            Ok [u "勉強"]) by (vm_compute; reflexivity).
  split; [exact Hrun|].
  exact (proj1 (candidate_words_are_clean _ _ _ Hrun)).
Defined.

Lemma nlt_loop_reaches_malformed cap examined bad rest word_count list_of_entries :
  word_count < cap → Forall nlt_well_formed examined →
  (length (filter (λ line, nlt_survives line) examined)
     < N.to_nat (cap - word_count))%nat →
  ¬ nlt_well_formed bad →
  nlt_loop cap (examined ++ bad :: rest) word_count list_of_entries =
    Raise IndexError.
Proof.
  intros Hlt Hwf. revert word_count list_of_entries Hlt.
  induction Hwf as [|line lines Hline _ IH];
    intros word_count list_of_entries Hlt Hlen Hbad.
  - by apply nlt_loop_malformed.
  - rewrite <- app_comm_cons, nlt_loop_step by (done || lia).
    destruct (nlt_survives line) eqn:Hs.
    + rewrite filter_cons_True in Hlen by (by rewrite Hs). simpl in Hlen.
      destruct (N.eqb_spec (word_count + 1) cap) as [Heq|Hne]; [lia|].
      apply IH; [lia | lia | done].
    + rewrite filter_cons_False in Hlen by (rewrite Hs; intros []).
      by apply IH.
Qed.

Lemma bccwj_loop_reaches_malformed cap examined bad rest word_count blacklist :
  (length examined < N.to_nat (cap - word_count))%nat →
  Forall bccwj_well_formed examined → ¬ bccwj_well_formed bad →
  bccwj_loop cap (examined ++ bad :: rest) word_count blacklist = Raise IndexError.
Proof.
  intros Hlen Hwf. revert word_count blacklist Hlen.
  induction Hwf as [|line lines Hline _ IH]; intros word_count blacklist Hlen Hbad.
  - by apply bccwj_loop_malformed.
  - rewrite <- app_comm_cons, bccwj_loop_step by done. simpl in *.
    destruct (N.eqb_spec (word_count + 1) cap) as [Heq|Hne]; [lia|].
    apply IH; [lia | done].
Qed.

(** X11: a line that lacks a field makes the build fail with
    [IndexError] when the scan reaches it: in the NLT file when fewer than
    51,000 entries have survived before it, in the BCCWJ file, which is
    read after the NLT file, when it is among the first 70,000 lines. *)
Theorem malformed_line_raises_IndexError :
  (∀ examined bad rest bccwj_database_file,
     Forall nlt_well_formed examined →
     (length (filter (λ line, nlt_survives line) examined) < N.to_nat 51000)%nat →
     ¬ nlt_well_formed bad →
     nlt_scan (examined ++ bad :: rest) = Raise IndexError ∧
     candidate_list (examined ++ bad :: rest) bccwj_database_file =
       Raise IndexError) ∧
  (∀ nlt_database_file list_of_entries examined bad rest,
     nlt_scan nlt_database_file = Ok list_of_entries →
     (length examined < N.to_nat 70000)%nat →
     Forall bccwj_well_formed examined → ¬ bccwj_well_formed bad →
     bccwj_scan (examined ++ bad :: rest) = Raise IndexError ∧
     candidate_list nlt_database_file (examined ++ bad :: rest) =
       Raise IndexError).
Proof.
  split.
  - intros examined bad rest bccwj Hwf Hlen Hbad.
    assert (Hscan : nlt_scan (examined ++ bad :: rest) = Raise IndexError).
    { apply nlt_loop_reaches_malformed; rewrite ?N.sub_0_r; done || lia. }
    split; [done|]. unfold candidate_list. by rewrite Hscan.
  - intros nlt entries examined bad rest Hnlt Hlen Hwf Hbad.
    assert (Hscan : bccwj_scan (examined ++ bad :: rest) = Raise IndexError).
    { apply bccwj_loop_reaches_malformed; rewrite ?N.sub_0_r; done. }
    split; [done|]. unfold candidate_list. by rewrite Hnlt, Hscan.
Qed.

Lemma malformed_line_raises_IndexError_witness :
  candidate_list ([ln "犬,名詞,いぬ"] ++ ln "malformed" :: [ln "猫,名詞,ねこ"]) [] =
    Raise IndexError ∧
  candidate_list [ln "犬,名詞,いぬ"]
    ([tsv ["1"; "カ"; "化"; "接尾辞-名詞的"; "x"]] ++ ln "malformed" :: []) =
    Raise IndexError.
Proof.
  destruct malformed_line_raises_IndexError as (Hnlt & Hbccwj). split.
  - apply Hnlt.
    + repeat constructor; vm_compute; lia.
    + rewrite filter_cons_True, filter_nil by reflexivity. simpl. lia.
    + vm_compute. lia.
  - apply (Hbccwj _ [(u "犬", u "いぬ")]).
    + vm_compute. reflexivity.
    + simpl. lia.
    + repeat constructor; vm_compute; lia.
    + vm_compute. lia.
Defined.

(** * The handler: construction, downloads and known lists *)

Section download_lemmas.
Context `{Countable K}.
Implicit Types (k : K) (item : subject_item K).

Lemma subjects_loop_snoc (l : list (subject_item K)) item (m : gmap K str) :
  subjects_loop (l ++ [item]) m =
    <[item_id item := item_characters item]> (subjects_loop l m).
Proof. revert m. induction l as [|i l IH]; intros m; simpl; [done | apply IH]. Qed.

Lemma subjects_loop_lookup (l : list (subject_item K)) k :
  subjects_loop l ∅ !! k = item_characters <$> last_subject l k.
Proof.
  unfold last_subject. induction l as [|item l IH] using rev_ind.
  - simpl. by rewrite lookup_empty.
  - rewrite subjects_loop_snoc, filter_app, lookup_insert.
    destruct (decide (item_id item = k)) as [Hk|Hk].
    + rewrite filter_cons_True by done. rewrite filter_nil.
      by rewrite last_snoc.
    + rewrite filter_cons_False by done. by rewrite filter_nil, app_nil_r.
Qed.

Lemma last_subject_is_Some (l : list (subject_item K)) k :
  is_Some (last_subject l k) ↔ ∃ item, item ∈ l ∧ item_id item = k.
Proof.
  unfold last_subject. split.
  - intros [item Hlast]. exists item. apply last_Some in Hlast as [l' Hl'].
    assert (Hin : item ∈ filter (λ i, item_id i = k) l).
    { rewrite Hl'. apply elem_of_app. right. by left. }
    apply list_elem_of_filter in Hin. tauto.
  - intros (item & Hin & Hk).
    destruct (filter (λ i, item_id i = k) l) as [|x xs] eqn:Hf.
    + exfalso. eapply (filter_nil_not_elem_of _ _ item); eauto.
    + destruct (last (x :: xs)) eqn:Hlast; [by eexists|].
      by apply last_None in Hlast.
Qed.

Lemma assignments_loop_snoc (l : list (assignment_item K)) a (d : list (K * Z)) :
  assignments_loop (l ++ [a]) d =
    dict_setitem (assignments_loop l d) (item_subject_id a) (item_srs_stage a).
Proof. revert d. induction l as [|i l IH]; intros d; simpl; [done | apply IH]. Qed.

Lemma dict_setitem_keys {V} (d : list (K * V)) k (v : V) :
  (dict_setitem d k v).*1 = if decide (k ∈ d.*1) then d.*1 else d.*1 ++ [k].
Proof.
  induction d as [|[k0 v0] d IH]; [done|]. csimpl.
  destruct (decide (k = k0)) as [->|Hne]; csimpl.
  - rewrite decide_True; [done | by left].
  - rewrite IH. destruct (decide (k ∈ d.*1)) as [Hin|Hin].
    + rewrite decide_True; [done | by right].
    + rewrite decide_False; [done|]. rewrite not_elem_of_cons. tauto.
Qed.

Lemma dict_setitem_elem {V} (d : list (K * V)) k (v : V) k' v' :
  NoDup d.*1 →
  (k', v') ∈ dict_setitem d k v ↔
  (k' = k ∧ v' = v) ∨ (k' ≠ k ∧ (k', v') ∈ d).
Proof.
  induction d as [|[k0 v0] d IH]; simpl; intros Hnd.
  - rewrite list_elem_of_singleton. split.
    + intros [= -> ->]. by left.
    + intros [[-> ->] | [_ Hin]]; [done | by apply elem_of_nil in Hin].
  - apply NoDup_cons in Hnd as [Hk0 Hnd].
    assert (Hfresh : ∀ x, (k0, x) ∉ d).
    { intros x Hin. apply Hk0. apply list_elem_of_fmap. by exists (k0, x). }
    destruct (decide (k = k0)) as [->|Hne]; rewrite !elem_of_cons.
    + split.
      * intros [[= -> ->] | Hin]; [by left | right].
        split; [|by right]. intros ->. by apply (Hfresh v').
      * intros [[-> ->] | [Hk [[= -> ->] | Hin]]]; [by left | done | by right].
    + rewrite IH by done. split.
      * intros [[= -> ->] | [[-> ->] | [Hk Hin]]].
        -- right. split; [done | by left].
        -- by left.
        -- right. split; [done | by right].
      * intros [[-> ->] | [Hk [[= -> ->] | Hin]]].
        -- right. by left.
        -- by left.
        -- right. right. done.
Qed.

Lemma first_seen_snoc {A} `{EqDecision A} (l : list A) x :
  first_seen (l ++ [x]) =
    if decide (x ∈ first_seen l) then first_seen l else first_seen l ++ [x].
Proof.
  unfold first_seen. rewrite reverse_snoc. simpl.
  destruct (decide_rel elem_of x (reverse l)) as [Hin|Hin].
  - rewrite decide_True; [done|].
    by rewrite elem_of_reverse, elem_of_remove_dups.
  - rewrite decide_False; [by rewrite reverse_cons|].
    by rewrite elem_of_reverse, elem_of_remove_dups.
Qed.

Lemma first_seen_NoDup {A} `{EqDecision A} (l : list A) : NoDup (first_seen l).
Proof. unfold first_seen. rewrite reverse_Permutation. apply NoDup_remove_dups. Qed.

Lemma elem_of_first_seen {A} `{EqDecision A} (l : list A) x :
  x ∈ first_seen l ↔ x ∈ l.
Proof.
  unfold first_seen.
  by rewrite elem_of_reverse, elem_of_remove_dups, elem_of_reverse.
Qed.

Lemma assignments_loop_keys (l : list (assignment_item K)) :
  (assignments_loop l []).*1 = first_seen (item_subject_id <$> l).
Proof.
  induction l as [|a l IH] using rev_ind; [done|].
  rewrite assignments_loop_snoc, dict_setitem_keys, fmap_app, IH. simpl.
  by rewrite first_seen_snoc.
Qed.

Lemma assignments_loop_elem (l : list (assignment_item K)) k (v : Z) :
  (k, v) ∈ assignments_loop l [] ↔
  item_srs_stage <$> last_assignment l k = Some v.
Proof.
  unfold last_assignment. induction l as [|a l IH] using rev_ind.
  - simpl. split; [by intros ?%elem_of_nil | done].
  - rewrite assignments_loop_snoc, filter_app, dict_setitem_elem
      by (rewrite assignments_loop_keys; apply first_seen_NoDup).
    destruct (decide (item_subject_id a = k)) as [Hk|Hk].
    + rewrite filter_cons_True, filter_nil, last_snoc by done. simpl.
      split; [intros [[_ ->] | [Hne _]]; done || congruence|].
      intros [= <-]. by left.
    + rewrite filter_cons_False, filter_nil, app_nil_r by done.
      rewrite IH. split; [intros [[-> _] | [_ ?]]; done | by right].
Qed.

End download_lemmas.

(** X12: a handler built when the cache file is missing or cannot be
    decoded holds no data: both known lists and the two filters that use
    them raise [KeyError], even on an empty word list, until data is
    downloaded; a missing file is left behind empty, so the next
    construction finds a file that cannot be decoded. *)
Theorem fresh_handler_raises_KeyError `{Countable K} (cache : cache_file K)
    (W : list str) (invert_filter : bool) :
  (∀ d, cache ≠ CacheHolds d) →
  let self := (__init__ cache).1 in
  get_known_kanji_list self = Raise KeyError ∧
  get_known_vocabulary_list self = Raise KeyError ∧
  filter_out_known_words self W invert_filter = Raise KeyError ∧
  filter_out_unknown_kanji self W invert_filter = Raise KeyError ∧
  (__init__ cache).2 = CacheUndecodable.
Proof.
  intros Hfresh. destruct cache as [| |d]; [done | done |].
  by destruct (Hfresh d).
Qed.

Lemma fresh_handler_raises_KeyError_witness :
  filter_out_known_words (__init__ (CacheMissing (K:=Z))).1 [] false =
    Raise KeyError ∧
  filter_out_unknown_kanji (__init__ (CacheMissing (K:=Z))).1 [] false =
    Raise KeyError.
Proof.
  destruct (fresh_handler_raises_KeyError (CacheMissing (K:=Z)) [] false)
    as (_ & _ & Hw & Hk & _); [done | by split].
Defined.

(** X13: which missing entries make a known list fail. Without the
    assignments entry the call raises [KeyError]. With an empty
    assignments dictionary it returns the empty list, whether the catalog
    entry exists or not. With assignments but no catalog entry it raises
    [KeyError]. *)
Theorem known_list_with_missing_entries `{Countable K} (self : WaniKaniHandler K) :
  (user_kanji_assignments (_data_dictionary self) = None →
     get_known_kanji_list self = Raise KeyError) ∧
  (user_kanji_assignments (_data_dictionary self) = Some [] →
     get_known_kanji_list self = Ok []) ∧
  (∀ assignments,
     user_kanji_assignments (_data_dictionary self) = Some assignments →
     assignments ≠ [] →
     all_kanji_subjects (_data_dictionary self) = None →
     get_known_kanji_list self = Raise KeyError) ∧
  (user_vocabulary_assignments (_data_dictionary self) = None →
     get_known_vocabulary_list self = Raise KeyError) ∧
  (user_vocabulary_assignments (_data_dictionary self) = Some [] →
     get_known_vocabulary_list self = Ok []) ∧
  (∀ assignments,
     user_vocabulary_assignments (_data_dictionary self) = Some assignments →
     assignments ≠ [] →
     all_vocabulary_subjects (_data_dictionary self) = None →
     get_known_vocabulary_list self = Raise KeyError).
Proof.
  unfold get_known_kanji_list, get_known_vocabulary_list.
  repeat split.
  - by intros ->.
  - by intros ->.
  - intros [|a assignments] -> Hne ->; done.
  - by intros ->.
  - by intros ->.
  - intros [|a assignments] -> Hne ->; done.
Qed.

Lemma known_list_with_missing_entries_witness :
  get_known_kanji_list
    {| _data_dictionary := {|
         user_kanji_assignments := Some ([] : list (Z * Z));
         user_vocabulary_assignments := Some [(2467%Z, 5%Z)];
         all_kanji_subjects := None;
         all_vocabulary_subjects := None |} |} = Ok [] ∧
  get_known_vocabulary_list
    {| _data_dictionary := {|
         user_kanji_assignments := Some ([] : list (Z * Z));
         user_vocabulary_assignments := Some [(2467%Z, 5%Z)];
         all_kanji_subjects := None;
         all_vocabulary_subjects := None |} |} = Raise KeyError.
Proof.
  split.
  - apply (proj1 (proj2 (known_list_with_missing_entries _))). reflexivity.
  - apply (proj2 (proj2 (proj2 (proj2 (proj2
             (known_list_with_missing_entries _))))) [(2467%Z, 5%Z)]);
      done.
Defined.

(** X14: the assignments dictionary that a download stores has each
    subject id once, in the order in which the ids first occur in the API
    list, and gives each the SRS stage of the last entry with that id. *)
Theorem assignments_dictionary_of_download `{Countable K}
    (self : WaniKaniHandler K) (assignments_list : list (assignment_item K)) :
  ∃ d,
    user_kanji_assignments
      (_data_dictionary (_download_user_known_kanji self assignments_list)) = Some d ∧
    user_vocabulary_assignments
      (_data_dictionary (_download_user_known_vocabulary self assignments_list)) = Some d ∧
    d.*1 = first_seen (item_subject_id <$> assignments_list) ∧
    NoDup d.*1 ∧
    ∀ k v, (k, v) ∈ d ↔
           item_srs_stage <$> last_assignment assignments_list k = Some v.
Proof.
  exists (assignments_loop assignments_list []).
  split; [done|]. split; [done|]. split; [apply assignments_loop_keys|].
  split; [rewrite assignments_loop_keys; apply first_seen_NoDup|].
  apply assignments_loop_elem.
Qed.

(** X15: the subject catalog that a download stores maps an id to the
    characters of the last entry of the API list with that id, and has no
    entry for an id that is not in the list. *)
Theorem subject_catalog_of_download `{Countable K}
    (self : WaniKaniHandler K) (subjects_list : list (subject_item K)) :
  ∃ catalog,
    all_kanji_subjects
      (_data_dictionary (_download_wanikani_kanji self subjects_list)) = Some catalog ∧
    all_vocabulary_subjects
      (_data_dictionary (_download_wanikani_vocabulary self subjects_list)) = Some catalog ∧
    (∀ k, catalog !! k = item_characters <$> last_subject subjects_list k) ∧
    (∀ k, is_Some (catalog !! k) ↔ ∃ item, item ∈ subjects_list ∧ item_id item = k).
Proof.
  exists (subjects_loop subjects_list ∅).
  split; [done|]. split; [done|]. split; [apply subjects_loop_lookup|].
  intros k. rewrite subjects_loop_lookup, <- last_subject_is_Some.
  by rewrite fmap_is_Some.
Qed.

Lemma known_list_after_download `{Countable K}
    (assignments_list : list (assignment_item K))
    (subjects_list : list (subject_item K)) :
  ((∀ a, a ∈ assignments_list →
      ∃ s, s ∈ subjects_list ∧ item_id s = item_subject_id a) →
   ∃ known,
     known_list_loop (Some (subjects_loop subjects_list ∅))
       (assignments_loop assignments_list []).*1 [] = Ok known ∧
     Forall2 (λ k w, item_characters <$> last_subject subjects_list k = Some w)
       (first_seen (item_subject_id <$> assignments_list)) known) ∧
  ((∃ a, a ∈ assignments_list ∧
         ∀ s, s ∈ subjects_list → item_id s ≠ item_subject_id a) →
   known_list_loop (Some (subjects_loop subjects_list ∅))
     (assignments_loop assignments_list []).*1 [] = Raise KeyError).
Proof.
  rewrite assignments_loop_keys.
  destruct (known_list_loop_projection (subjects_loop subjects_list ∅)
              (first_seen (item_subject_id <$> assignments_list)))
    as [Hpresent Habsent].
  split.
  - intros Hall. destruct Hpresent as (known & Hrun & Hproj).
    + apply Forall_forall. intros k Hk.
      apply elem_of_first_seen, list_elem_of_fmap in Hk as (a & -> & Ha).
      cbv beta. rewrite subjects_loop_lookup, fmap_is_Some.
      apply last_subject_is_Some. by apply Hall.
    + exists known. split; [done|].
      eapply Forall2_impl; [exact Hproj|]. intros k w. cbv beta.
      by rewrite subjects_loop_lookup.
  - intros (a & Ha & Hnone). apply Habsent.
    apply Exists_exists. exists (item_subject_id a). split.
    + apply elem_of_first_seen, list_elem_of_fmap. by exists a.
    + cbv beta. apply eq_None_not_Some.
      rewrite subjects_loop_lookup, fmap_is_Some.
      rewrite last_subject_is_Some. intros (s & Hs & Hid).
      by apply (Hnone s).
Qed.

(** X16: after [download_all_data] the known lists no longer depend on
    what the handler held before. When every assignment names a subject
    of the downloaded subject list, the known list is returned: one string
    per distinct assigned id, in the order of first assignment, each the
    characters of the last subject entry with that id. When an assignment
    names a subject that was not downloaded, the call raises [KeyError]. *)
Theorem known_lists_after_download_all_data `{Countable K}
    (self : WaniKaniHandler K)
    (kanji_assignments_list vocabulary_assignments_list : list (assignment_item K))
    (kanji_subjects_list vocabulary_subjects_list : list (subject_item K)) :
  let self' := download_all_data self kanji_assignments_list
                 vocabulary_assignments_list kanji_subjects_list
                 vocabulary_subjects_list in
  ((∀ a, a ∈ kanji_assignments_list →
      ∃ s, s ∈ kanji_subjects_list ∧ item_id s = item_subject_id a) →
   ∃ known,
     get_known_kanji_list self' = Ok known ∧
     Forall2 (λ k w, item_characters <$> last_subject kanji_subjects_list k = Some w)
       (first_seen (item_subject_id <$> kanji_assignments_list)) known) ∧
  ((∃ a, a ∈ kanji_assignments_list ∧
         ∀ s, s ∈ kanji_subjects_list → item_id s ≠ item_subject_id a) →
   get_known_kanji_list self' = Raise KeyError) ∧
  ((∀ a, a ∈ vocabulary_assignments_list →
      ∃ s, s ∈ vocabulary_subjects_list ∧ item_id s = item_subject_id a) →
   ∃ known,
     get_known_vocabulary_list self' = Ok known ∧
     Forall2 (λ k w, item_characters <$> last_subject vocabulary_subjects_list k = Some w)
       (first_seen (item_subject_id <$> vocabulary_assignments_list)) known) ∧
  ((∃ a, a ∈ vocabulary_assignments_list ∧
         ∀ s, s ∈ vocabulary_subjects_list → item_id s ≠ item_subject_id a) →
   get_known_vocabulary_list self' = Raise KeyError).
Proof.
  intros self'.
  destruct (known_list_after_download kanji_assignments_list kanji_subjects_list)
    as [Hk1 Hk2].
  destruct (known_list_after_download vocabulary_assignments_list
              vocabulary_subjects_list) as [Hv1 Hv2].
  split; [exact Hk1|]. split; [exact Hk2|]. split; [exact Hv1 | exact Hv2].
Qed.

Lemma known_lists_after_download_all_data_witness :
  (∃ known,
     get_known_kanji_list
       (download_all_data (__init__ (CacheMissing (K:=Z))).1
          example_kanji_assignments [] example_kanji_subjects []) = Ok known ∧
     Forall2 (λ k w, item_characters <$> last_subject example_kanji_subjects k
                     = Some w)
       (first_seen (item_subject_id <$> example_kanji_assignments)) known) ∧
  get_known_vocabulary_list
    (download_all_data (__init__ (CacheMissing (K:=Z))).1
       [] example_vocabulary_assignments [] []) = Raise KeyError.
Proof.
  split.
  - apply (proj1 (known_lists_after_download_all_data
                    (__init__ (CacheMissing (K:=Z))).1
                    example_kanji_assignments [] example_kanji_subjects [])).
    intros a Ha. unfold example_kanji_assignments in Ha.
    repeat (apply elem_of_cons in Ha as [-> | Ha]);
      [exists {| item_id := 440%Z; item_characters := u "食" |};
         split; [left | reflexivity]
      |exists {| item_id := 441%Z; item_characters := u "飲" |};
         split; [right; left | reflexivity]
      |exists {| item_id := 440%Z; item_characters := u "食" |};
         split; [left | reflexivity]
      |by apply elem_of_nil in Ha].
  - apply (proj2 (proj2 (proj2 (known_lists_after_download_all_data
                    (__init__ (CacheMissing (K:=Z))).1
                    [] example_vocabulary_assignments [] [])))).
    eexists. split; [left|]. intros s Hs. by apply elem_of_nil in Hs.
Defined.

Example known_list_after_download_example :
  get_known_kanji_list
    (download_all_data (__init__ (CacheMissing (K:=Z))).1
       example_kanji_assignments [] example_kanji_subjects []) =
    Ok [u "食"; u "飲"].
Proof. reflexivity. Qed.

(** * From the candidate words to the frequency list *)

Lemma range_from_slices (batch_size : nat) (l : list str) (fuel start : nat) :
  (1 ≤ batch_size)%nat → (length l - start ≤ fuel)%nat →
  concat (words_slice batch_size l <$> range_from fuel start (length l) batch_size)
    = drop start l.
Proof.
  intros Hstep. revert start.
  induction fuel as [|fuel IH]; intros start Hfuel; simpl.
  - rewrite drop_ge; [done | lia].
  - destruct (Nat.ltb_spec start (length l)) as [Hlt|Hge].
    + rewrite fmap_cons. simpl. rewrite IH by lia. unfold words_slice.
      rewrite <- (drop_drop l batch_size start). apply take_drop.
    + rewrite drop_ge; [done | lia].
Qed.

Lemma range_from_slices_bounds (batch_size : nat) (l : list str) (fuel start : nat) :
  (1 ≤ batch_size)%nat →
  Forall (λ s, (1 ≤ length s ≤ batch_size)%nat)
    (words_slice batch_size l <$> range_from fuel start (length l) batch_size).
Proof.
  intros Hstep. revert start. induction fuel as [|fuel IH]; intros start; simpl.
  - constructor.
  - destruct (Nat.ltb_spec start (length l)) as [Hlt|Hge]; [|constructor].
    rewrite fmap_cons. constructor; [|apply IH].
    unfold words_slice. rewrite length_take, length_drop. lia.
Qed.

Section first_seen.
Context {A : Type} `{EqDecision A}.
Implicit Types l : list A.

Lemma first_seen_NoDup_id l : NoDup l → first_seen l = l.
Proof.
  induction l as [|x l IH] using rev_ind; [done|].
  intros [Hl [Hx _]]%NoDup_app. rewrite first_seen_snoc, IH by done.
  rewrite decide_False; [done|]. intros Hin. apply (Hx x Hin). by left.
Qed.

Lemma first_seen_app_seen l1 l2 :
  first_seen (first_seen l1 ++ l2) = first_seen (l1 ++ l2).
Proof.
  induction l2 as [|x l2 IH] using rev_ind.
  - rewrite !app_nil_r. apply first_seen_NoDup_id, first_seen_NoDup.
  - rewrite !app_assoc, !first_seen_snoc, IH.
    by repeat case_decide.
Qed.

Lemma first_seen_skip_seen l1 x l2 :
  x ∈ l1 → first_seen (l1 ++ x :: l2) = first_seen (l1 ++ l2).
Proof.
  intros Hin. induction l2 as [|y l2 IH] using rev_ind.
  - rewrite app_nil_r, first_seen_snoc.
    by rewrite decide_True by (by apply elem_of_first_seen).
  - rewrite app_comm_cons, !app_assoc, !first_seen_snoc. by rewrite IH.
Qed.

Lemma extend_new_first_seen (vocabs acc : list A) :
  NoDup acc → extend_new vocabs acc = first_seen (acc ++ vocabs).
Proof.
  revert acc. induction vocabs as [|v vocabs IH]; intros acc Hnd; simpl.
  - by rewrite app_nil_r, first_seen_NoDup_id.
  - unfold py_in. case_bool_decide as Hin; simpl.
    + rewrite IH by done. by rewrite first_seen_skip_seen.
    + rewrite IH.
      * by rewrite <- app_assoc.
      * apply NoDup_app. split; [done|]. split; [|apply NoDup_singleton].
        intros x Hx ->%list_elem_of_singleton. done.
Qed.

End first_seen.

Section batches.
Context {V : Type} `{EqDecision V}.
Variable get_ids : list str → list V.
Variable get_spellings : list V → list str.

Lemma batches_loop_first_seen batch_size indices (l : list str) (acc : list V) :
  NoDup acc →
  batches_loop get_ids batch_size indices l acc =
    first_seen (acc ++ concat ((λ i, get_ids (words_slice batch_size l i))
                                 <$> indices)).
Proof.
  revert acc. induction indices as [|i indices IH]; intros acc Hnd; simpl.
  - by rewrite app_nil_r, first_seen_NoDup_id.
  - rewrite IH by (rewrite extend_new_first_seen by done; apply first_seen_NoDup).
    rewrite extend_new_first_seen by done.
    by rewrite first_seen_app_seen, <- app_assoc.
Qed.

Lemma concat_distributes (l : list (list str)) :
  (∀ a b, get_ids (a ++ b) = get_ids a ++ get_ids b) →
  concat (get_ids <$> l) = get_ids (concat l).
Proof.
  intros Hdist. induction l as [|x l IH]; csimpl.
  - specialize (Hdist [] []). simpl in Hdist.
    apply (f_equal length) in Hdist. rewrite length_app in Hdist.
    destruct (get_ids []); [done | simpl in Hdist; lia].
  - by rewrite IH, Hdist.
Qed.

Lemma generate_frequency_list_file_batches
    (nlt_database_file bccwj_database_file : list str) :
  generate_frequency_list_file get_ids get_spellings
      nlt_database_file bccwj_database_file =
    (list_of_words ← candidate_list nlt_database_file bccwj_database_file;
     Ok (get_spellings
           (first_seen
              (concat (get_ids <$> (words_slice 1000 list_of_words
                         <$> py_range 0 (length list_of_words) 1000)))))).
Proof.
  unfold generate_frequency_list_file.
  destruct (candidate_list _ _) as [ws|e]; [|done]. simpl.
  rewrite batches_loop_first_seen by apply NoDup_nil_2. simpl.
  by rewrite <- list_fmap_compose.
Qed.

End batches.

Lemma slices_concat (list_of_words : list str) :
  concat (words_slice 1000 list_of_words
            <$> py_range 0 (length list_of_words) 1000) = list_of_words.
Proof. unfold py_range. rewrite range_from_slices by lia. done. Qed.

(** X17: the slices handed to the JPDB handler are the candidate words
    cut into consecutive batches: put end to end they give the list back,
    and each holds at least one and at most 1,000 words. *)
Theorem batches_partition_the_words (list_of_words : list str) :
  let slices :=
    words_slice 1000 list_of_words <$> py_range 0 (length list_of_words) 1000 in
  concat slices = list_of_words ∧
  Forall (λ s, (1 ≤ length s ≤ 1000)%nat) slices.
Proof.
  split; [apply slices_concat|]. apply range_from_slices_bounds. lia.
Qed.

(** X18: the frequency list is built from the candidate list by asking
    the handler for the ids of each batch, keeping each id at its first
    occurrence over all batches, and asking for the spellings of these ids
    in one call; the ids passed on have no duplicates. *)
Theorem frequency_list_from_batches {V : Type} `{EqDecision V}
    (get_ids : list str → list V) (get_spellings : list V → list str)
    (nlt_database_file bccwj_database_file : list str) :
  generate_frequency_list_file get_ids get_spellings
      nlt_database_file bccwj_database_file =
    (list_of_words ← candidate_list nlt_database_file bccwj_database_file;
     Ok (get_spellings
           (first_seen
              (concat (get_ids <$> (words_slice 1000 list_of_words
                         <$> py_range 0 (length list_of_words) 1000)))))) ∧
  ∀ list_of_words indices,
    NoDup (batches_loop get_ids 1000 indices list_of_words []).
Proof.
  split; [apply generate_frequency_list_file_batches|].
  intros ws indices. rewrite batches_loop_first_seen by apply NoDup_nil_2.
  apply first_seen_NoDup.
Qed.

(** X19: when the handler answers word by word, that is, when the ids of
    a list of words are the ids of its parts one after the other, cutting
    the words into batches has no effect: the ids are those of the whole
    candidate list, each at its first occurrence. *)
Theorem batching_is_transparent {V : Type} `{EqDecision V}
    (get_ids : list str → list V) (get_spellings : list V → list str)
    (nlt_database_file bccwj_database_file : list str) :
  (∀ a b, get_ids (a ++ b) = get_ids a ++ get_ids b) →
  generate_frequency_list_file get_ids get_spellings
      nlt_database_file bccwj_database_file =
    (list_of_words ← candidate_list nlt_database_file bccwj_database_file;
     Ok (get_spellings (first_seen (get_ids list_of_words)))).
Proof.
  intros Hdist. rewrite generate_frequency_list_file_batches.
  destruct (candidate_list _ _) as [ws|e]; [|done]. simpl.
  rewrite concat_distributes by done. by rewrite slices_concat.
Qed.

Lemma batching_is_transparent_witness :
  generate_frequency_list_file (λ ws : list str, ws) (λ ids : list str, ids)
    [ln "勉強する,動詞,べんきょうする"; ln "犬,名詞,いぬ"] [] =
  (list_of_words ← candidate_list
                     [ln "勉強する,動詞,べんきょうする"; ln "犬,名詞,いぬ"] [];
   Ok (first_seen list_of_words)).
Proof.
  apply (batching_is_transparent (λ ws : list str, ws) (λ ids : list str, ids)).
  reflexivity.
Defined.

(** With the batch size 2, five words are cut into three batches. *)
Example batches_small :
  words_slice 2 [[1]; [2]; [3]; [4]; [5]] <$> py_range 0 5 2 =
    [[[1]; [2]]; [[3]; [4]]; [[5]]] ∧
  batches_loop (λ ws : list str, ws) 2 (py_range 0 5 2)
    [[1]; [2]; [1]; [3]; [2]] [] = [[1]; [2]; [3]].
Proof. split; reflexivity. Qed.

(** * The configuration file *)

Section config_lemmas.
Context {J : Type} (JStr : str → J).

Lemma default_api_keys_lookup k :
  default_api_keys JStr !! k =
    if decide (k = u "wanikani") then Some (JStr [])
    else if decide (k = u "jpdb") then Some (JStr []) else None.
Proof.
  unfold default_api_keys. rewrite !lookup_insert, lookup_empty.
  repeat case_decide; congruence.
Qed.

Lemma read_config_file_lookup (file : config_file J) k :
  (read_config_file JStr file).1 !! k =
    match file with
    | ConfigHolds loaded =>
        match loaded !! k with
        | Some v => Some v
        | None => default_api_keys JStr !! k
        end
    | _ => default_api_keys JStr !! k
    end.
Proof.
  destruct file as [| |loaded]; [done | done |]. simpl.
  rewrite lookup_union. fold (default_api_keys JStr).
  destruct (loaded !! k), (default_api_keys JStr !! k); done.
Qed.

Lemma read_config_file_both_keys (file : config_file J) :
  is_Some ((read_config_file JStr file).1 !! u "wanikani") ∧
  is_Some ((read_config_file JStr file).1 !! u "jpdb").
Proof.
  rewrite !read_config_file_lookup, !default_api_keys_lookup.
  destruct file as [| |loaded]; simpl; try (split; by eexists).
  split; [destruct (loaded !! u "wanikani") | destruct (loaded !! u "jpdb")];
    by eexists.
Qed.

Lemma read_config_file_fixed (d : gmap str J) :
  is_Some (d !! u "wanikani") → is_Some (d !! u "jpdb") →
  read_config_file JStr (ConfigHolds d) = (d, ConfigHolds d).
Proof.
  intros [v1 H1] [v2 H2].
  assert (Hd : d ∪ default_api_keys JStr = d).
  { apply map_eq. intros k.
    rewrite lookup_union, default_api_keys_lookup.
    repeat case_decide; subst; rewrite ?H1, ?H2; try done.
    by destruct (d !! k). }
  unfold read_config_file, write_config_file. fold (default_api_keys JStr).
  by rewrite Hd.
Qed.

Lemma read_config_file_again (file : config_file J) :
  (read_config_file JStr file).2 = ConfigHolds (read_config_file JStr file).1 ∧
  read_config_file JStr (read_config_file JStr file).2 = read_config_file JStr file.
Proof.
  assert (Hsnd : (read_config_file JStr file).2 =
                 ConfigHolds (read_config_file JStr file).1) by done.
  split; [done|]. rewrite Hsnd at 1.
  rewrite read_config_file_fixed by apply read_config_file_both_keys.
  rewrite <- Hsnd. by destruct (read_config_file JStr file).
Qed.

End config_lemmas.

(** X20: [read_config_file] never fails and always returns a dictionary
    with the keys ["wanikani"] and ["jpdb"]: the entries of the file,
    completed by the empty string for a key of the two that the file lacks
    (both, when the file is missing or cannot be decoded). The file then
    holds the returned dictionary, and reading it again returns the same
    dictionary and leaves the same file. *)
Theorem read_config_file_completes_and_persists {J : Type} (JStr : str → J)
    (file : config_file J) :
  let api_keys_dict := (read_config_file JStr file).1 in
  is_Some (api_keys_dict !! u "wanikani") ∧
  is_Some (api_keys_dict !! u "jpdb") ∧
  (∀ k, api_keys_dict !! k =
        match file with
        | ConfigHolds loaded =>
            match loaded !! k with
            | Some v => Some v
            | None => default_api_keys JStr !! k
            end
        | _ => default_api_keys JStr !! k
        end) ∧
  (∀ k, default_api_keys JStr !! k =
        if decide (k = u "wanikani") then Some (JStr [])
        else if decide (k = u "jpdb") then Some (JStr []) else None) ∧
  (read_config_file JStr file).2 = ConfigHolds api_keys_dict ∧
  read_config_file JStr (read_config_file JStr file).2 = read_config_file JStr file.
Proof.
  intros api_keys_dict.
  destruct (read_config_file_both_keys JStr file) as [Hw Hj].
  destruct (read_config_file_again JStr file) as [Hsnd Hagain].
  split; [done|]. split; [done|].
  split; [apply read_config_file_lookup|].
  split; [apply default_api_keys_lookup|]. by split.
Qed.

Example read_config_file_example :
  (read_config_file (λ s : str, s) ConfigMissing).1 !! u "jpdb" = Some [] ∧
  (read_config_file (λ s : str, s)
     (ConfigHolds {[ u "jpdb" := u "key"; u "other" := u "x" ]})).1 !! u "jpdb"
    = Some (u "key") ∧
  (read_config_file (λ s : str, s)
     (ConfigHolds {[ u "jpdb" := u "key"; u "other" := u "x" ]})).1 !! u "wanikani"
    = Some [] ∧
  (read_config_file (λ s : str, s)
     (ConfigHolds {[ u "jpdb" := u "key"; u "other" := u "x" ]})).1 !! u "other"
    = Some (u "x").
Proof. repeat split; vm_compute; reflexivity. Qed.

(** * [print_list] *)

Lemma split_app_sep sep (w rest : str) :
  sep ∉ w → split sep (w ++ sep :: rest) = w :: split sep rest.
Proof.
  induction w as [|c w IH]; intros Hsep; simpl.
  - by rewrite N.eqb_refl.
  - apply not_elem_of_cons in Hsep as [Hc Hw].
    rewrite (proj2 (N.eqb_neq c sep)) by congruence.
    by rewrite IH.
Qed.

Lemma print_list_cons word rest :
  print_list (word :: rest) =
    if (length word <=? 3)%nat then word ++ 9 :: 9 :: print_list rest
    else word ++ 9 :: print_list rest.
Proof.
  unfold print_list. simpl.
  destruct (length word <=? 3)%nat; by rewrite <- !app_assoc.
Qed.

(** X21: [print_list] prints one line that can be read back: when no
    word is empty or contains a tab, cutting the printed text at the tabs
    and dropping the empty pieces gives the words in order, followed by
    the final newline. *)
Theorem print_list_reads_back (words_list : list str) :
  Forall (λ word, word ≠ [] ∧ 9 ∉ word) words_list →
  filter (λ piece, piece ≠ []) (split 9 (print_list words_list)) =
    words_list ++ [[10]].
Proof.
  induction 1 as [|word rest [Hne Htab] _ IH]; [done|].
  rewrite print_list_cons.
  destruct (length word <=? 3)%nat.
  - rewrite split_app_sep by done.
    change (9 :: print_list rest) with ([] ++ 9 :: print_list rest).
    rewrite split_app_sep by apply not_elem_of_nil.
    rewrite filter_cons_True by done.
    rewrite filter_cons_False by (intros Hn; by apply Hn).
    exact (f_equal (cons word) IH).
  - rewrite split_app_sep by done.
    rewrite filter_cons_True by done. exact (f_equal (cons word) IH).
Qed.

Lemma print_list_reads_back_witness :
  filter (λ piece, piece ≠ []) (split 9 (print_list [u "犬"; u "勉強する"])) =
    [u "犬"; u "勉強する"] ++ [[10]].
Proof.
  apply print_list_reads_back.
  repeat constructor; try discriminate; vm_compute;
    intros Hin; repeat (apply elem_of_cons in Hin as [Hin | Hin]; [discriminate|]);
    by apply elem_of_nil in Hin.
Defined.

Example print_list_example :
  print_list [u "犬"; u "勉強する"] = u "犬" ++ [9; 9] ++ u "勉強する" ++ [9; 10].
Proof. reflexivity. Qed.

(** * [_call_api] *)

Section call_api_lemmas.
Context {Item Params : Type}.
Implicit Types (pages : list (list Item * str)) (data_array : list Item).

Lemma _call_api_loop_complete pages (data : list Item)
    (extra : list (api_response Item))
    (next_page : str) (parameters : option Params) data_array :
  _call_api_loop ((page_response <$> pages) ++ last_page_response data :: extra)
      next_page parameters data_array =
    (Request next_page parameters :: ((λ url, Request url None) <$> pages.*2),
     Returned (data_array ++ concat (pages.*1) ++ data)).
Proof.
  revert next_page parameters data_array.
  induction pages as [|page pages IH]; intros next_page parameters data_array;
    [done|].
  csimpl. rewrite IH. by rewrite <- !app_assoc.
Qed.

Lemma _call_api_loop_error pages (code : Z) (extra : list (api_response Item))
    (next_page : str) (parameters : option Params) data_array :
  _call_api_loop ((page_response <$> pages) ++ error_response code :: extra)
      next_page parameters data_array =
    (Request next_page parameters :: ((λ url, Request url None) <$> pages.*2)
       ++ (if (code =? 401)%Z then [RemoveKeyFromConfig (u "wanikani")] else []),
     Exited 1).
Proof.
  revert next_page parameters data_array.
  induction pages as [|page pages IH]; intros next_page parameters data_array.
  - simpl. unfold api_error. simpl. by destruct (code =? 401)%Z.
  - csimpl. by rewrite IH.
Qed.

End call_api_lemmas.

(** X22: when the server sends a run of pages, each with its data and
    the URL of the next one, and then a page whose next URL is [null],
    [_call_api] returns the data of all the pages, in order. It requests
    the endpoint URL with the parameters, then each next URL without
    parameters, and makes no request after the last page. *)
Theorem call_api_collects_all_pages {Item Params : Type}
    (endpoint : str) (parameters : Params)
    (pages : list (list Item * str)) (data : list Item)
    (extra : list (api_response Item)) :
  _call_api endpoint parameters
      ((page_response <$> pages) ++ last_page_response data :: extra) =
    (Request (u "https://api.wanikani.com/v2/" ++ endpoint) (Some parameters)
       :: ((λ url, Request url None) <$> pages.*2),
     Returned (concat (pages.*1) ++ data)).
Proof. unfold _call_api. by rewrite _call_api_loop_complete. Qed.

(** X23: when, after any number of pages, the server sends a response
    without data but with a code, [_call_api] leaves through
    [sys.exit(1)] and returns none of the data read so far; the code 401,
    and only this code, makes it remove the key ["wanikani"] from the
    configuration first. *)
Theorem call_api_exits_on_error {Item Params : Type}
    (endpoint : str) (parameters : Params)
    (pages : list (list Item * str)) (code : Z)
    (extra : list (api_response Item)) :
  _call_api endpoint parameters
      ((page_response <$> pages) ++ error_response code :: extra) =
    (Request (u "https://api.wanikani.com/v2/" ++ endpoint) (Some parameters)
       :: ((λ url, Request url None) <$> pages.*2)
       ++ (if (code =? 401)%Z then [RemoveKeyFromConfig (u "wanikani")] else []),
     Exited 1).
Proof. unfold _call_api. by rewrite _call_api_loop_error. Qed.

Example call_api_two_pages :
  _call_api (Params:=str) (u "subjects") (u "types=kanji")
    [page_response ([1%Z; 2%Z], u "https://api.wanikani.com/v2/subjects?page=2");
     last_page_response [3%Z]] =
  ([Request (u "https://api.wanikani.com/v2/subjects") (Some (u "types=kanji"));
    Request (u "https://api.wanikani.com/v2/subjects?page=2") None],
   Returned [1%Z; 2%Z; 3%Z]).
Proof. vm_compute; reflexivity. Qed.

(** * [KANA_LIST] *)

(** X24: [KANA_LIST] holds one-character strings only: those of the
    code points U+3041 to U+3096 and U+30A1 to U+30FC, all but the
    katakana ヘ (U+30D8). A word that has ヘ is therefore never kana-only
    for the filters: [filter_out_kana_words] keeps it without
    [invert_filter] and drops it with [invert_filter]. *)
Theorem KANA_LIST_lacks_katakana_he :
  (∀ s, s ∈ KANA_LIST → length s = 1%nat) ∧
  (∀ c : char, [c] ∈ KANA_LIST ↔ spec_is_kana c ∧ c ≠ katakana_he) ∧
  (∀ (W : list str) (w : str),
     katakana_he ∈ w →
     (w ∈ filter_out_kana_words W false ↔ w ∈ W) ∧
     w ∉ filter_out_kana_words W true) ∧
  filter_out_kana_words [u "ヘア"; u "ホテル"] false = [u "ヘア"].
Proof.
  split; [|split; [|split]].
  - apply Forall_forall. apply (bool_decide_unpack _). vm_compute. exact I.
  - intros c. apply is_kana_spec.
  - intros W w Hhe.
    assert (Hnot : ¬ kana_only w).
    { intros Hko. unfold kana_only in Hko. rewrite Forall_forall in Hko.
      apply Hko, is_kana_spec in Hhe. tauto. }
    destruct (kana_words_closed W) as [-> ->].
    rewrite !list_elem_of_filter. tauto.
  - vm_compute. reflexivity.
Qed.

Lemma KANA_LIST_lacks_katakana_he_witness :
  katakana_he ∈ u "ヘア" ∧
  u "ヘア" ∉ filter_out_kana_words [u "ヘア"; u "ホテル"] true.
Proof.
  assert (Hhe : katakana_he ∈ u "ヘア") by (vm_compute; left).
  split; [exact Hhe|].
  exact (proj2 (proj1 (proj2 (proj2 KANA_LIST_lacks_katakana_he))
                  [u "ヘア"; u "ホテル"] (u "ヘア") Hhe)).
Defined.
